(** * The worker pool of [module/worker_module.go]

    A shallow embedding of the task scheduler of the [module] package:
    the task registry, the two bounded channels, the scheduler's priority
    flush and the worker's execution of one record, followed by the
    properties of the scheduling design that hold of this code and the
    places where it departs from them.

    Conventions.  A Go [int] and a [time.Duration] are 64-bit signed
    integers, held in [Z]; the only arithmetic the module does on them is
    [Retries++], whose wrap-around is written out.  A [time.Time] is its
    count of nanoseconds since the Unix epoch.  A [*TaskInfo] is an address
    into a heap of records, so that the registry, the channels and the
    scheduler's slice alias the same record as they do in Go.  Every
    [time.Now()] of the source is an argument of the function that calls
    it: the clock is an input, and two readings may be equal. *)

From stdpp Require Import base numbers option list gmap strings pretty.
From Stdlib Require Import Ascii Sorting.Sorted.

Local Open Scope Z_scope.

(** ** Results of a Go call: a value, a panic, or a goroutine parked forever *)

Inductive outcome (A : Type) : Type :=
  | Ok (a : A)
  | Panic (msg : string)
  | Blocked.
Arguments Ok {A} a.
Arguments Panic {A} msg.
Arguments Blocked {A}.

Global Instance outcome_ret : MRet outcome := λ A a, Ok a.
Global Instance outcome_bind : MBind outcome := λ A B k m,
  match m with
  | Ok a => k a
  | Panic msg => Panic msg
  | Blocked => Blocked
  end.

(** ** Channels *)

Module Chan.

Record t (A : Type) : Type := Make {
  buf : list A;
  cap : nat;
  closed : bool;
}.
Arguments Make {A} buf cap closed.
Arguments buf {A} _.
Arguments cap {A} _.
Arguments closed {A} _.

(** [make(chan A, n)] *)
Definition make {A} (n : nat) : t A := Make [] n false.

(** [select { case c <- x: ... default: ... }]: the send is taken when the
    buffer has room (no receiver is parked in the sequential reading);
    on a closed channel the send case is ready and panics. *)
Definition send_nb {A} (c : t A) (x : A) : outcome (bool * t A) :=
  if closed c then Panic "send on closed channel"
  else if decide (length (buf c) < cap c)%nat
       then Ok (true, Make (buf c ++ [x]) (cap c) false)
       else Ok (false, c).

(** [close(c)] *)
Definition close {A} (c : t A) : outcome (t A) :=
  if closed c then Panic "close of closed channel"
  else Ok (Make (buf c) (cap c) true).

(** [x, ok := <-c]: [None] when the receive would park the goroutine. *)
Definition recv {A} (c : t A) : option (option A * t A) :=
  match buf c with
  | x :: rest => Some (Some x, Make rest (cap c) (closed c))
  | [] => if closed c then Some (None, c) else None
  end.

End Chan.

(** ** Data model *)

Definition Time := Z.
Definition Duration := Z.
Definition error := string.
Definition addr := nat.

(** [int] is 64 bits wide on the platforms the module runs on. *)
Definition int_wrap (x : Z) : Z := (x + 2^63) `mod` 2^64 - 2^63.

(** [t.Unix()]: whole seconds since the epoch. *)
Definition Unix (t : Time) : Z := t `div` 1000000000.
(** [t.UnixNano()] *)
Definition UnixNano (t : Time) : Z := t.

(** [context.Context], as far as the module builds one. *)
Inductive Context : Type :=
  | Background
  | WithCancel (parent : Context)
  | WithTimeout (parent : Context) (timeout : Duration).

(** The [Task] interface, as the record of its five methods.  [Execute]
    returns [None] for a nil error. *)
Record Task : Type := {
  Execute : Context → option error;
  Name : string;
  Priority : Z;
  Timeout : Duration;
  Retry : Z;
}.

Inductive TaskStatus : Type :=
  | TaskStatusPending
  | TaskStatusRunning
  | TaskStatusCompleted
  | TaskStatusFailed
  | TaskStatusCancelled.

Global Instance TaskStatus_eq_dec : EqDecision TaskStatus.
Proof. solve_decision. Defined.

Definition TaskStatusStrMap (s : TaskStatus) : string :=
  match s with
  | TaskStatusPending => "pending"
  | TaskStatusRunning => "running"
  | TaskStatusCompleted => "completed"
  | TaskStatusFailed => "failed"
  | TaskStatusCancelled => "cancelled"
  end.

Record TaskInfo : Type := {
  ID : string;
  task : Task;
  Status : TaskStatus;
  StatusStr : string;
  CreatedAt : Time;
  StartedAt : Time;
  EndedAt : Time;
  Error : option error;
  Retries : Z;
}.

Definition set_Status (s : TaskStatus) (ti : TaskInfo) : TaskInfo :=
  {| ID := ID ti; task := task ti; Status := s; StatusStr := StatusStr ti;
     CreatedAt := CreatedAt ti; StartedAt := StartedAt ti;
     EndedAt := EndedAt ti; Error := Error ti; Retries := Retries ti |}.
Definition set_StatusStr (s : string) (ti : TaskInfo) : TaskInfo :=
  {| ID := ID ti; task := task ti; Status := Status ti; StatusStr := s;
     CreatedAt := CreatedAt ti; StartedAt := StartedAt ti;
     EndedAt := EndedAt ti; Error := Error ti; Retries := Retries ti |}.
Definition set_StartedAt (t : Time) (ti : TaskInfo) : TaskInfo :=
  {| ID := ID ti; task := task ti; Status := Status ti;
     StatusStr := StatusStr ti; CreatedAt := CreatedAt ti; StartedAt := t;
     EndedAt := EndedAt ti; Error := Error ti; Retries := Retries ti |}.
Definition set_EndedAt (t : Time) (ti : TaskInfo) : TaskInfo :=
  {| ID := ID ti; task := task ti; Status := Status ti;
     StatusStr := StatusStr ti; CreatedAt := CreatedAt ti;
     StartedAt := StartedAt ti; EndedAt := t; Error := Error ti;
     Retries := Retries ti |}.
Definition set_Error (e : option error) (ti : TaskInfo) : TaskInfo :=
  {| ID := ID ti; task := task ti; Status := Status ti;
     StatusStr := StatusStr ti; CreatedAt := CreatedAt ti;
     StartedAt := StartedAt ti; EndedAt := EndedAt ti; Error := e;
     Retries := Retries ti |}.
Definition set_Retries (n : Z) (ti : TaskInfo) : TaskInfo :=
  {| ID := ID ti; task := task ti; Status := Status ti;
     StatusStr := StatusStr ti; CreatedAt := CreatedAt ti;
     StartedAt := StartedAt ti; EndedAt := EndedAt ti; Error := Error ti;
     Retries := n |}.

(** What the module hands to the [logger] package: level, message and the
    task identifier of the event (empty when there is none). *)
Inductive Level : Type := LInfo | LWarn | LError.
Definition LogEntry : Type := Level * string * string.

(** The [WorkerModule] struct, and below the line the process around it:
    the records its pointers point to, the scheduler goroutine's local
    slice, the logger's sink and the calls made to [Task.Execute]. *)
Record WorkerModule : Type := {
  workerCount : Z;
  submitQueue : Chan.t addr;
  taskQueue : Chan.t addr;
  quit : Chan.t bool;
  tasks : gmap string addr;
  wg : nat;
  (* ------------------------------------------------------------ *)
  heap : list TaskInfo;
  pendingTasks : list addr;
  log : list LogEntry;
  executed : list (addr * Context);
}.

Definition set_submitQueue (c : Chan.t addr) (wm : WorkerModule) :=
  {| workerCount := workerCount wm; submitQueue := c;
     taskQueue := taskQueue wm; quit := quit wm; tasks := tasks wm;
     wg := wg wm; heap := heap wm; pendingTasks := pendingTasks wm;
     log := log wm; executed := executed wm |}.
Definition set_taskQueue (c : Chan.t addr) (wm : WorkerModule) :=
  {| workerCount := workerCount wm; submitQueue := submitQueue wm;
     taskQueue := c; quit := quit wm; tasks := tasks wm;
     wg := wg wm; heap := heap wm; pendingTasks := pendingTasks wm;
     log := log wm; executed := executed wm |}.
Definition set_quit (c : Chan.t bool) (wm : WorkerModule) :=
  {| workerCount := workerCount wm; submitQueue := submitQueue wm;
     taskQueue := taskQueue wm; quit := c; tasks := tasks wm;
     wg := wg wm; heap := heap wm; pendingTasks := pendingTasks wm;
     log := log wm; executed := executed wm |}.
Definition set_tasks (m : gmap string addr) (wm : WorkerModule) :=
  {| workerCount := workerCount wm; submitQueue := submitQueue wm;
     taskQueue := taskQueue wm; quit := quit wm; tasks := m;
     wg := wg wm; heap := heap wm; pendingTasks := pendingTasks wm;
     log := log wm; executed := executed wm |}.
Definition set_heap (h : list TaskInfo) (wm : WorkerModule) :=
  {| workerCount := workerCount wm; submitQueue := submitQueue wm;
     taskQueue := taskQueue wm; quit := quit wm; tasks := tasks wm;
     wg := wg wm; heap := h; pendingTasks := pendingTasks wm;
     log := log wm; executed := executed wm |}.
Definition set_pendingTasks (l : list addr) (wm : WorkerModule) :=
  {| workerCount := workerCount wm; submitQueue := submitQueue wm;
     taskQueue := taskQueue wm; quit := quit wm; tasks := tasks wm;
     wg := wg wm; heap := heap wm; pendingTasks := l;
     log := log wm; executed := executed wm |}.
Definition logger (e : LogEntry) (wm : WorkerModule) :=
  {| workerCount := workerCount wm; submitQueue := submitQueue wm;
     taskQueue := taskQueue wm; quit := quit wm; tasks := tasks wm;
     wg := wg wm; heap := heap wm; pendingTasks := pendingTasks wm;
     log := log wm ++ [e]; executed := executed wm |}.
Definition record_call (a : addr) (c : Context) (wm : WorkerModule) :=
  {| workerCount := workerCount wm; submitQueue := submitQueue wm;
     taskQueue := taskQueue wm; quit := quit wm; tasks := tasks wm;
     wg := wg wm; heap := heap wm; pendingTasks := pendingTasks wm;
     log := log wm; executed := executed wm ++ [(a, c)] |}.

(** Dereferencing a [*TaskInfo].  The module never stores a nil pointer;
    an address outside the heap stands for one and panics as Go does. *)
Definition deref (wm : WorkerModule) (a : addr) : outcome TaskInfo :=
  match heap wm !! a with
  | Some ti => Ok ti
  | None => Panic "invalid memory address or nil pointer dereference"
  end.

(** Assignment through a pointer: the record at [a] becomes [f] of it. *)
Definition update (a : addr) (f : TaskInfo → TaskInfo) (wm : WorkerModule)
  : WorkerModule :=
  match heap wm !! a with
  | Some ti => set_heap (<[a := f ti]> (heap wm)) wm
  | None => wm
  end.

(** ** SimpleTask *)

Record SimpleTask : Type := {
  name : string;
  priority : Z;
  timeout : Duration;
  retry : Z;
  handler : Context → option error;
}.

Definition TaskOption : Type := SimpleTask → SimpleTask.

Definition WithPriority (p : Z) : TaskOption := λ t,
  {| name := name t; priority := p; timeout := timeout t; retry := retry t;
     handler := handler t |}.
Definition WithTimeoutOpt (d : Duration) : TaskOption := λ t,
  {| name := name t; priority := priority t; timeout := d; retry := retry t;
     handler := handler t |}.
Definition WithRetry (r : Z) : TaskOption := λ t,
  {| name := name t; priority := priority t; timeout := timeout t; retry := r;
     handler := handler t |}.

Definition NewSimpleTask (n : string) (h : Context → option error)
    (opts : list TaskOption) : SimpleTask :=
  foldl (λ t opt, opt t)
    {| name := n; priority := 0; timeout := 0; retry := 0; handler := h |}
    opts.

(** [*SimpleTask] implements [Task]. *)
Definition SimpleTask_Task (st : SimpleTask) : Task :=
  {| Execute := handler st; Name := name st; Priority := priority st;
     Timeout := timeout st; Retry := retry st |}.

(** ** The module's functions *)

Definition NewWorkerModule (workerCount : Z) : WorkerModule :=
  {| workerCount := if decide (workerCount ≤ 0) then 1 else workerCount;
     submitQueue := Chan.make 100;
     taskQueue := Chan.make 100;
     quit := Chan.make 0;
     tasks := ∅;
     wg := 0%nat;
     heap := []; pendingTasks := []; log := []; executed := [] |}.

(** [fmt.Sprintf("task_%d_%d", time.Now().UnixNano(), time.Now().Unix())]:
    two readings of the clock. *)
Definition generateTaskID (now1 now2 : Time) : string :=
  "task_" +:+ pretty (UnixNano now1) +:+ "_" +:+ pretty (Unix now2).

(** [&TaskInfo{...}]: the new record goes to a fresh address. *)
Definition alloc (ti : TaskInfo) (wm : WorkerModule) : addr * WorkerModule :=
  (length (heap wm), set_heap (heap wm ++ [ti]) wm).

Definition SubmitTask (now1 now2 now3 : Time) (t : Task) (wm : WorkerModule)
  : outcome (string * option error * WorkerModule) :=
  let taskID := generateTaskID now1 now2 in
  let '(taskInfo, wm) :=
    alloc {| ID := taskID; task := t; Status := TaskStatusPending;
             StatusStr := ""; CreatedAt := now3; StartedAt := 0;
             EndedAt := 0; Error := None; Retries := 0 |} wm in
  let wm := set_tasks (<[taskID := taskInfo]> (tasks wm)) wm in
  '(sent, q) ← Chan.send_nb (submitQueue wm) taskInfo;
  if sent : bool then
    Ok (taskID, None,
        logger (LInfo, "Task submitted", taskID) (set_submitQueue q wm))
  else
    Ok ("", Some "task queue is full", wm).

Definition GetTaskInfo (taskID : string) (wm : WorkerModule)
  : outcome (option addr * bool * WorkerModule) :=
  match tasks wm !! taskID with
  | None => Ok (None, false, wm)
  | Some p =>
      ti ← deref wm p;
      Ok (Some p, true,
          update p (set_StatusStr (TaskStatusStrMap (Status ti))) wm)
  end.

Definition CancelTask (now : Time) (taskID : string) (wm : WorkerModule)
  : outcome (bool * WorkerModule) :=
  match tasks wm !! taskID with
  | None => Ok (false, wm)
  | Some p =>
      ti ← deref wm p;
      if decide (Status ti ≠ TaskStatusPending) then Ok (false, wm)
      else Ok (true,
               update p (λ ti, set_EndedAt now
                                 (set_Status TaskStatusCancelled ti)) wm)
  end.

(** [Start] counts its goroutines on the [*sync.WaitGroup] it is given,
    never on [wm.wg]; it returns that counter and leaves the module as it
    was (apart from the log). *)
Definition Start (extwg : nat) (wm : WorkerModule) : nat * WorkerModule :=
  ((extwg + Z.to_nat (workerCount wm) + 1)%nat,
   logger (LInfo, "WorkerModule started", "") wm).

(** [wm.wg.Wait()] returns once the counter is zero. *)
Definition wg_Wait (wm : WorkerModule) : outcome unit :=
  if decide (wg wm = 0%nat) then Ok () else Blocked.

Definition Stop (wm : WorkerModule) : outcome WorkerModule :=
  let wm := logger (LInfo, "WorkerModule stopping", "") wm in
  q ← Chan.close (quit wm);
  let wm := set_quit q wm in
  sq ← Chan.close (submitQueue wm);
  let wm := set_submitQueue sq wm in
  tq ← Chan.close (taskQueue wm);
  let wm := set_taskQueue tq wm in
  _ ← wg_Wait wm;
  Ok (logger (LInfo, "WorkerModule stopped", "") wm).

(** ** The scheduler's priority flush *)

Section sort.
Context {A : Type} (key : A → Z).

(** [tasks[i].Task.Priority() < tasks[j].Task.Priority()] *)
Definition less (t : list A) (i j : nat) : bool :=
  match t !! i, t !! j with
  | Some x, Some y => bool_decide (key x < key y)
  | _, _ => false
  end.

(** [tasks[i], tasks[j] = tasks[j], tasks[i]] *)
Definition swap (i j : nat) (t : list A) : list A :=
  match t !! i, t !! j with
  | Some x, Some y => <[j := x]> (<[i := y]> t)
  | _, _ => t
  end.

(** [for j := ...; j < len(tasks); j++], with [n] iterations to go. *)
Fixpoint inner_loop (i j n : nat) (t : list A) : list A :=
  match n with
  | O => t
  | S n => inner_loop i (S j) n (if less t i j then swap i j t else t)
  end.

(** [for i := ...; i < len(tasks)-1; i++], with [n] iterations to go. *)
Fixpoint outer_loop (i n : nat) (t : list A) : list A :=
  match n with
  | O => t
  | S n => outer_loop (S i) n (inner_loop i (S i) (length t - S i) t)
  end.

Definition sortByPriority (t : list A) : list A :=
  outer_loop 0 (length t - 1) t.
End sort.

(** [p.Task.Priority()] and [p.ID] for a record in a queue.  Every address
    in a queue was put there by [SubmitTask] or [executeTask] and is in the
    heap; the default is never read. *)
Definition prio (wm : WorkerModule) (a : addr) : Z :=
  match heap wm !! a with
  | Some ti => Priority (task ti)
  | None => 0
  end.
Definition idOf (wm : WorkerModule) (a : addr) : string :=
  match heap wm !! a with
  | Some ti => ID ti
  | None => ""
  end.

(** The second loop of [flushPendingTasks]. *)
Fixpoint dispatch (l : list addr) (wm : WorkerModule) : outcome WorkerModule :=
  match l with
  | [] => Ok wm
  | a :: l =>
      '(sent, q) ← Chan.send_nb (taskQueue wm) a;
      dispatch l
        (if sent : bool then set_taskQueue q wm
         else logger (LWarn, "Task queue full, dropping task", idOf wm a) wm)
  end.

(** [flushPendingTasks] sorts the slice it is given in place: the sorted
    slice is returned with the module. *)
Definition flushPendingTasks (l : list addr) (wm : WorkerModule)
  : outcome (list addr * WorkerModule) :=
  if decide (length l = 0%nat) then Ok (l, wm)
  else
    let l := sortByPriority (prio wm) l in
    wm ← dispatch l wm;
    Ok (l, wm).

(** One turn of the scheduler's [select].  Which ready case is taken is the
    runtime's choice, here the caller's.  The result is [None] when the case
    is not ready, and otherwise tells whether the goroutine goes on. *)
Inductive SchedCase : Type :=
  | SchedRecv | SchedTick | SchedQuit | SchedCtxDone.

Definition flush_and_return (wm : WorkerModule) : outcome (bool * WorkerModule) :=
  '(l, wm) ← flushPendingTasks (pendingTasks wm) wm;
  Ok (false, set_pendingTasks l wm).

Definition scheduler (c : SchedCase) (wm : WorkerModule)
  : option (outcome (bool * WorkerModule)) :=
  match c with
  | SchedRecv =>
      match Chan.recv (submitQueue wm) with
      | None => None
      | Some (None, _) => Some (flush_and_return wm)
      | Some (Some taskInfo, q) =>
          Some (Ok (true,
                    set_pendingTasks (pendingTasks wm ++ [taskInfo])
                      (set_submitQueue q wm)))
      end
  | SchedTick =>
      if decide (0 < length (pendingTasks wm))%nat then
        Some ('(_, wm) ← flushPendingTasks (pendingTasks wm) wm;
              Ok (true, set_pendingTasks [] wm))
      else Some (Ok (true, wm))
  | SchedQuit =>
      if Chan.closed (quit wm) then Some (flush_and_return wm) else None
  | SchedCtxDone => Some (flush_and_return wm)
  end.

(** ** The worker *)

(** Lines 304 to 307 of [executeTask], under the mutex. *)
Definition executeTask_begin (now : Time) (a : addr) (wm : WorkerModule)
  : outcome WorkerModule :=
  _ ← deref wm a;
  Ok (update a (λ ti, set_StartedAt now (set_Status TaskStatusRunning ti)) wm).

(** Lines 310 to 315: the context [Execute] is given. *)
Definition taskCtx (ctx : Context) (t : Task) : Context :=
  if decide (0 < Timeout t) then WithTimeout ctx (Timeout t) else ctx.

(** Line 318, outside the mutex. *)
Definition executeTask_call (ctx : Context) (a : addr) (wm : WorkerModule)
  : outcome (option error * WorkerModule) :=
  ti ← deref wm a;
  let c := taskCtx ctx (task ti) in
  Ok (Execute (task ti) c, record_call a c wm).

(** Lines 320 to 347, under the mutex. *)
Definition executeTask_end (now : Time) (err : option error) (a : addr)
    (wm : WorkerModule) : outcome WorkerModule :=
  ti ← deref wm a;
  let wm := update a (set_EndedAt now) wm in
  match err with
  | Some e =>
      if decide (Retries ti < Retry (task ti)) then
        let wm :=
          update a (λ ti, set_Status TaskStatusPending
                            (set_Retries (int_wrap (Retries ti + 1)) ti)) wm in
        let wm := logger (LWarn, "Task failed, retrying", ID ti) wm in
        '(sent, q) ← Chan.send_nb (submitQueue wm) a;
        if sent : bool then Ok (set_submitQueue q wm)
        else
          Ok (logger (LError, "Task retry failed, queue full", ID ti)
                (update a (λ ti, set_Error (Some e)
                                   (set_Status TaskStatusFailed ti)) wm))
      else
        Ok (logger (LError, "Task execution failed", ID ti)
              (update a (λ ti, set_Error (Some e)
                                 (set_Status TaskStatusFailed ti)) wm))
  | None =>
      Ok (logger (LInfo, "Task completed ", ID ti)
            (update a (set_Status TaskStatusCompleted) wm))
  end.

Definition executeTask (ctx : Context) (now1 now2 : Time) (a : addr)
    (wm : WorkerModule) : outcome WorkerModule :=
  wm ← executeTask_begin now1 a wm;
  '(err, wm) ← executeTask_call ctx a wm;
  executeTask_end now2 err a wm.

(** Line 222: the worker reads the status without the mutex. *)
Definition worker_cancelled (a : addr) (wm : WorkerModule) : outcome bool :=
  ti ← deref wm a;
  Ok (bool_decide (Status ti = TaskStatusCancelled)).

(** One turn of a worker's loop on the [taskQueue] case, run without
    another goroutine in between.  [None] when the queue has nothing to
    give; otherwise whether the worker goes on. *)
Definition worker (ctx : Context) (now1 now2 : Time) (wm : WorkerModule)
  : option (outcome (bool * WorkerModule)) :=
  match Chan.recv (taskQueue wm) with
  | None => None
  | Some (None, _) => Some (Ok (false, logger (LInfo, "Worker stopped", "") wm))
  | Some (Some taskInfo, q) =>
      let wm := set_taskQueue q wm in
      Some (skip ← worker_cancelled taskInfo wm;
            if skip : bool then Ok (true, wm)
            else wm ← executeTask ctx now1 now2 taskInfo wm; Ok (true, wm))
  end.
(** ** Runs of the module *)

(** A turn of a goroutine that must be able to run. *)
Definition turn (r : option (outcome (bool * WorkerModule)))
  : outcome WorkerModule :=
  match r with
  | None => Blocked
  | Some o => '(_, wm) ← o; Ok wm
  end.

(** The call returned, and its result satisfies [P]. *)
Definition after {A} (o : outcome A) (P : A → Prop) : Prop :=
  match o with
  | Ok a => P a
  | _ => False
  end.

(** Free slots of a channel's buffer. *)
Definition room {A} (c : Chan.t A) : nat :=
  (Chan.cap c - length (Chan.buf c))%nat.

(** The scheduler takes every record the submission queue holds. *)
Fixpoint sched_drain (n : nat) (wm : WorkerModule) : outcome WorkerModule :=
  match n with
  | O => Ok wm
  | S n =>
      match Chan.buf (submitQueue wm) with
      | [] => Ok wm
      | _ :: _ => wm ← turn (scheduler SchedRecv wm); sched_drain n wm
      end
  end.

(** One worker takes every record the dispatch queue holds, one at a time. *)
Fixpoint work_drain (ctx : Context) (now : Time) (n : nat) (wm : WorkerModule)
  : outcome WorkerModule :=
  match n with
  | O => Ok wm
  | S n =>
      match Chan.buf (taskQueue wm) with
      | [] => Ok wm
      | _ :: _ => wm ← turn (worker ctx now now wm); work_drain ctx now n wm
      end
  end.

(** One flush window with one worker: the scheduler drains the submission
    queue, the ticker fires, and the worker runs what was dispatched. *)
Definition cycle (ctx : Context) (now : Time) (wm : WorkerModule)
  : outcome WorkerModule :=
  wm ← sched_drain (length (Chan.buf (submitQueue wm))) wm;
  wm ← turn (scheduler SchedTick wm);
  work_drain ctx now (length (Chan.buf (taskQueue wm))) wm.

Fixpoint cycles (ctx : Context) (now : Time) (n : nat) (wm : WorkerModule)
  : outcome WorkerModule :=
  match n with
  | O => Ok wm
  | S n => wm ← cycle ctx now wm; cycles ctx now n wm
  end.

(** Submitting a list of tasks, the [i]-th at clock reading [now + i]. *)
Fixpoint submit_all (now : Time) (ts : list Task) (wm : WorkerModule)
  : outcome WorkerModule :=
  match ts with
  | [] => Ok wm
  | t :: ts =>
      '(_, _, wm) ← SubmitTask now now now t wm;
      submit_all (now + 1) ts wm
  end.

(** How many times [Execute] was called on the record at [a]. *)
Definition calls (a : addr) (wm : WorkerModule) : nat :=
  length (filter (λ c, c.1 = a) (executed wm)).

(** A task of priority [p] that succeeds, and one that always fails. *)
Definition succeeding (p : Z) : Task :=
  SimpleTask_Task (NewSimpleTask "ok" (λ _, None) [WithPriority p]).
Definition failing (e : error) (r : Z) : Task :=
  SimpleTask_Task (NewSimpleTask "fail" (λ _, Some e) [WithRetry r]).

(** ** Reference functions and closed forms used by the proofs *)

Section sort_model.
Context {A : Type} (key : A → Z).

(** One run of the inner loop seen on lists: [pass x l] carries the
    element at index [i] along the rest of the slice, exchanging it with
    every element of strictly greater key, and returns what ends at index
    [i] and the rest. *)
Fixpoint pass (x : A) (l : list A) : A * list A :=
  match l with
  | [] => (x, [])
  | y :: l =>
      if bool_decide (key x < key y)
      then let '(m, l') := pass y l in (m, x :: l')
      else let '(m, l') := pass x l in (m, y :: l')
  end.

(** [n] runs of the outer loop. *)
Fixpoint passes (n : nat) (l : list A) : list A :=
  match n, l with
  | S n, x :: rest => let '(m, r) := pass x rest in m :: passes n r
  | _, _ => l
  end.

Definition descending : list A → Prop :=
  StronglySorted (λ a b, key b ≤ key a).

End sort_model.

(** No character of [s] is [c]. *)
Fixpoint free_of (c : ascii) (s : string) : Prop :=
  match s with
  | EmptyString => True
  | String c' s' => c' ≠ c ∧ free_of c s'
  end.

(** The record after the two locked sections of [executeTask]. *)
Definition ran (n1 n2 : Time) (ti : TaskInfo) : TaskInfo :=
  set_EndedAt n2 (set_StartedAt n1 (set_Status TaskStatusRunning ti)).
Definition retried (ti : TaskInfo) : TaskInfo :=
  set_Status TaskStatusPending (set_Retries (int_wrap (Retries ti + 1)) ti).
Definition failed (e : error) (ti : TaskInfo) : TaskInfo :=
  set_Error (Some e) (set_Status TaskStatusFailed ti).

(** [executeTask] on a record [ti] at [a], without the intermediate reads. *)
Definition executeTask_result (ctx : Context) (n1 n2 : Time) (a : addr)
    (ti : TaskInfo) (wm : WorkerModule) : WorkerModule :=
  let c := taskCtx ctx (task ti) in
  let wm := record_call a c wm in
  let put (x : TaskInfo) := set_heap (<[a := x]> (heap wm)) wm in
  match Execute (task ti) c with
  | None =>
      logger (LInfo, "Task completed ", ID ti)
        (put (set_Status TaskStatusCompleted (ran n1 n2 ti)))
  | Some e =>
      if decide (Retries ti < Retry (task ti)) then
        if decide (length (Chan.buf (submitQueue wm)) < Chan.cap (submitQueue wm))%nat
        then
          set_submitQueue
            (Chan.Make (Chan.buf (submitQueue wm) ++ [a])
               (Chan.cap (submitQueue wm)) false)
            (logger (LWarn, "Task failed, retrying", ID ti)
               (put (retried (ran n1 n2 ti))))
        else
          logger (LError, "Task retry failed, queue full", ID ti)
            (logger (LWarn, "Task failed, retrying", ID ti)
               (put (failed e (retried (ran n1 n2 ti)))))
      else
        logger (LError, "Task execution failed", ID ti)
          (put (failed e (ran n1 n2 ti)))
  end.

(** The warnings of the second loop of [flushPendingTasks]. *)
Definition dropped (wm : WorkerModule) (l : list addr) : list LogEntry :=
  (λ a, (LWarn, "Task queue full, dropping task"%string, idOf wm a)) <$> l.

Definition dispatch_result (l : list addr) (wm : WorkerModule) : WorkerModule :=
  {| workerCount := workerCount wm; submitQueue := submitQueue wm;
     taskQueue :=
       Chan.Make (Chan.buf (taskQueue wm) ++ take (room (taskQueue wm)) l)
         (Chan.cap (taskQueue wm)) false;
     quit := quit wm; tasks := tasks wm; wg := wg wm; heap := heap wm;
     pendingTasks := pendingTasks wm;
     log := log wm ++ dropped wm (drop (room (taskQueue wm)) l);
     executed := executed wm |}.

(** ** States used as concrete inputs *)

(** A hundred tasks submitted while the scheduler has not run: the
    submission queue is at its capacity. *)
Definition submit_queue_full : outcome WorkerModule :=
  submit_all 1 (replicate 100 (succeeding 0)) (NewWorkerModule 1).

(** The scheduler has forwarded those hundred records and no worker has
    taken one yet: the dispatch queue is at its capacity.  One more task
    has been submitted and received by the scheduler. *)
Definition dispatch_queue_full : outcome WorkerModule :=
  wm ← submit_queue_full;
  wm ← sched_drain 100 wm;
  wm ← turn (scheduler SchedTick wm);
  '(_, _, wm) ← SubmitTask 500 500 500 (succeeding 7) wm;
  turn (scheduler SchedRecv wm).



(** The module a run ends in (a fresh module if the run does not return). *)
Definition result (o : outcome WorkerModule) : WorkerModule :=
  match o with
  | Ok wm => wm
  | _ => NewWorkerModule 1
  end.

(** ** The retry loop of one record *)

(** The record at [a] wraps [t], is [Pending] with [k] retries behind it
    and sits alone in the submission queue; nothing else is in flight.
    [Execute] was called [k] times on it since the count stood at [c0]. *)
Definition awaiting (a : addr) (t : Task) (c0 : nat) (k : Z)
    (wm : WorkerModule) : Prop :=
  Chan.buf (submitQueue wm) = [a] ∧
  Chan.closed (submitQueue wm) = false ∧
  (0 < Chan.cap (submitQueue wm))%nat ∧
  Chan.buf (taskQueue wm) = [] ∧
  Chan.closed (taskQueue wm) = false ∧
  (0 < Chan.cap (taskQueue wm))%nat ∧
  pendingTasks wm = [] ∧
  (∃ ti, heap wm !! a = Some ti ∧ task ti = t ∧
         Status ti = TaskStatusPending ∧ Retries ti = k ∧ Error ti = None) ∧
  calls a wm = (c0 + Z.to_nat k)%nat.


(** Both queues are open and empty and the scheduler holds nothing. *)
Definition idle (wm : WorkerModule) : Prop :=
  Chan.buf (submitQueue wm) = [] ∧
  Chan.closed (submitQueue wm) = false ∧
  (0 < Chan.cap (submitQueue wm))%nat ∧
  Chan.buf (taskQueue wm) = [] ∧
  Chan.closed (taskQueue wm) = false ∧
  (0 < Chan.cap (taskQueue wm))%nat ∧
  pendingTasks wm = [].

(** ** A cancellation that arrives while a worker holds the record *)

(** One task is submitted and dispatched.  The worker receives the record
    and reads its status (lines 215 to 222); before the worker reaches
    [executeTask] (line 227), [CancelTask] runs on the caller's goroutine
    under the mutex; then the worker goes on.  The run returns what the
    worker's check said, what [CancelTask] returned, the status of the
    record after [CancelTask], after the first locked section of
    [executeTask] and at the end, and the number of calls of [Execute]. *)
Definition cancel_race : outcome (bool * bool * list TaskStatus * nat) :=
  '(id, _, wm) ← SubmitTask 1 1 1 (succeeding 1) (NewWorkerModule 1);
  wm ← turn (scheduler SchedRecv wm);
  wm ← turn (scheduler SchedTick wm);
  match Chan.recv (taskQueue wm) with
  | Some (Some p, q) =>
      let wm := set_taskQueue q wm in
      skip ← worker_cancelled p wm;
      '(cancelled, wm) ← CancelTask 2 id wm;
      ti1 ← deref wm p;
      wm ← executeTask_begin 3 p wm;
      ti2 ← deref wm p;
      '(err, wm) ← executeTask_call Background p wm;
      wm ← executeTask_end 4 err p wm;
      ti3 ← deref wm p;
      Ok (skip, cancelled, [Status ti1; Status ti2; Status ti3], calls p wm)
  | _ => Blocked
  end.

(** ** The worker's other cases, and the module as a transition system *)














(** ** Options of [NewSimpleTask] as data *)

Inductive Opt : Type :=
  | OptPriority (p : Z)
  | OptTimeout (d : Duration)
  | OptRetry (r : Z).

Definition option_of (o : Opt) : TaskOption :=
  match o with
  | OptPriority p => WithPriority p
  | OptTimeout d => WithTimeoutOpt d
  | OptRetry r => WithRetry r
  end.

Definition priority_arg (o : Opt) : option Z :=
  match o with OptPriority p => Some p | _ => None end.
Definition timeout_arg (o : Opt) : option Duration :=
  match o with OptTimeout d => Some d | _ => None end.
Definition retry_arg (o : Opt) : option Z :=
  match o with OptRetry r => Some r | _ => None end.

(** ** ModuleManager *)

Section module_manager.
Context {W : Type}.

(** The [Module] interface.  [W] is whatever the modules of a manager act
    on: their own state and the wait group they are given. *)
Record Module : Type := {
  mod_Start : Context → W → outcome (option error * W);
  mod_Stop : W → outcome (option error * W);
}.

(** The [ModuleManager] struct is its one field, the map [modules]. *)
Local Abbreviation ModuleManager := (gmap string Module).

Definition NewModuleManager : ModuleManager := ∅.

Definition RegisterModule (name : string) (m : Module) (mm : ModuleManager)
  : ModuleManager := <[name := m]> mm.

(** The body of [StartAll] on the modules in the order the [range] over
    the map yields them. *)
Fixpoint StartAll_range (ctx : Context) (ms : list Module) (w : W)
  : outcome (option error * W) :=
  match ms with
  | [] => Ok (None, w)
  | m :: ms =>
      '(err, w) ← mod_Start m ctx w;
      match err with
      | Some e => Ok (Some e, w)
      | None => StartAll_range ctx ms w
      end
  end.

Fixpoint StopAll_range (ms : list Module) (w : W)
  : outcome (option error * W) :=
  match ms with
  | [] => Ok (None, w)
  | m :: ms =>
      '(err, w) ← mod_Stop m w;
      match err with
      | Some e => Ok (Some e, w)
      | None => StopAll_range ms w
      end
  end.


Definition StopAll (order : list string) (mm : ModuleManager) (w : W)
  : outcome (option error * W) :=
  StopAll_range (omap (λ name, mm !! name) order) w.
End module_manager.
Arguments Module W : clear implicits.
Abbreviation ModuleManager W := (gmap string (Module W)).

(** [*WorkerModule] implements [Module]; what it acts on is itself and the
    counter of the wait group it is given. *)
Definition WorkerModule_Module : Module (WorkerModule * nat) :=
  {| mod_Start := λ _ '(wm, extwg),
       let '(extwg, wm) := Start extwg wm in Ok (None, (wm, extwg));
     mod_Stop := λ '(wm, extwg), wm ← Stop wm; Ok (None, (wm, extwg)) |}.



(** Two modules over a counter of [Start] calls, used as concrete inputs:
    one whose [Start] returns nil and one whose [Start] returns an error. *)
Definition counts : Module nat :=
  {| mod_Start := λ _ w, Ok (None, S w);
     mod_Stop := λ w, Ok (None, w) |}.
Definition always_fails : Module nat :=
  {| mod_Start := λ _ w, Ok (Some "no"%string, S w);
     mod_Stop := λ w, Ok (None, w) |}.

(** * Properties *)

(** ** The priority sort *)

Section sort_facts.
Context {A : Type} (key : A → Z).

Lemma pass_length x l : length (pass key x l).2 = length l.
Proof.
  revert x. induction l as [|y l IH]; intros x; simpl; [done|].
  case_bool_decide.
  - specialize (IH y). destruct (pass key y l); simpl in *; lia.
  - specialize (IH x). destruct (pass key x l); simpl in *; lia.
Qed.

Lemma inner_loop_pass todo : ∀ pre x seen,
  inner_loop key (length pre) (S (length pre + length seen)) (length todo)
    (pre ++ x :: seen ++ todo)
  = pre ++ (pass key x todo).1 :: seen ++ (pass key x todo).2.
Proof.
  induction todo as [|y todo IH]; intros pre x seen; simpl; [done|].
  assert (Hi : (pre ++ x :: seen ++ y :: todo) !! length pre = Some x).
  { by rewrite list_lookup_middle. }
  assert (Hj : (pre ++ x :: seen ++ y :: todo) !! S (length pre + length seen)
               = Some y).
  { rewrite lookup_app_r by lia.
    replace (S (length pre + length seen) - length pre)%nat
      with (S (length seen)) by lia.
    simpl. by rewrite list_lookup_middle. }
  unfold less, swap. rewrite Hi, Hj.
  case_bool_decide.
  - replace (<[S (length pre + length seen):=x]>
               (<[length pre:=y]> (pre ++ x :: seen ++ y :: todo)))
      with (pre ++ y :: (seen ++ [x]) ++ todo).
    + specialize (IH pre y (seen ++ [x])).
      rewrite length_app in IH. simpl in IH.
      replace (S (length pre + (length seen + 1)))
        with (S (S (length pre + length seen))) in IH by lia.
      rewrite IH. destruct (pass key y todo) as [m l']. simpl.
      by rewrite <-app_assoc.
    + rewrite insert_app_r_alt by lia.
      replace (length pre - length pre)%nat with 0%nat by lia. simpl.
      rewrite insert_app_r_alt by lia.
      replace (S (length pre + length seen) - length pre)%nat
        with (S (length seen)) by lia. simpl.
      rewrite insert_app_r_alt by lia.
      replace (length seen - length seen)%nat with 0%nat by lia. simpl.
      by rewrite <-app_assoc.
  - specialize (IH pre x (seen ++ [y])).
    rewrite length_app in IH. simpl in IH.
    replace (S (length pre + (length seen + 1)))
      with (S (S (length pre + length seen))) in IH by lia.
    rewrite <-app_assoc in IH. simpl in IH. rewrite IH.
    destruct (pass key x todo) as [m l']. simpl.
    by rewrite <-app_assoc.
Qed.

Lemma outer_loop_done n : ∀ i t,
  (length t ≤ i)%nat → outer_loop key i n t = t.
Proof.
  induction n as [|n IH]; intros i t Hi; simpl; [done|].
  replace (length t - S i)%nat with 0%nat by lia. simpl.
  apply IH. lia.
Qed.

Lemma outer_loop_passes n : ∀ pre rest,
  outer_loop key (length pre) n (pre ++ rest) = pre ++ passes key n rest.
Proof.
  induction n as [|n IH]; intros pre rest; simpl; [done|].
  destruct rest as [|x rest].
  - replace (length (pre ++ []) - S (length pre))%nat with 0%nat
      by (rewrite length_app; simpl; lia).
    simpl. apply outer_loop_done. rewrite length_app. simpl. lia.
  - replace (length (pre ++ x :: rest) - S (length pre))%nat
      with (length rest) by (rewrite length_app; simpl; lia).
    pose proof (inner_loop_pass rest pre x []) as H.
    simpl in H. rewrite Nat.add_0_r in H. rewrite H.
    destruct (pass key x rest) as [m r]. simpl.
    specialize (IH (pre ++ [m]) r).
    rewrite length_app in IH. simpl in IH.
    replace (length pre + 1)%nat with (S (length pre)) in IH by lia.
    rewrite <-app_assoc in IH. simpl in IH. rewrite IH.
    by rewrite <-app_assoc.
Qed.

Lemma sortByPriority_passes t :
  sortByPriority key t = passes key (length t - 1) t.
Proof. apply (outer_loop_passes _ [] t). Qed.

Lemma pass_perm x l : (pass key x l).1 :: (pass key x l).2 ≡ₚ x :: l.
Proof.
  revert x. induction l as [|y l IH]; intros x; simpl; [done|].
  case_bool_decide.
  - specialize (IH y). destruct (pass key y l) as [m l']; simpl in *.
    by rewrite (Permutation_swap x m l'), IH.
  - specialize (IH x). destruct (pass key x l) as [m l']; simpl in *.
    rewrite (Permutation_swap y m l'), IH. apply Permutation_swap.
Qed.

Lemma pass_max x l :
  key x ≤ key (pass key x l).1 ∧
  Forall (λ y, key y ≤ key (pass key x l).1) (pass key x l).2.
Proof.
  revert x. induction l as [|y l IH]; intros x; simpl; [by split|].
  case_bool_decide.
  - destruct (IH y) as [H1 H2]. destruct (pass key y l) as [m l']; simpl in *.
    split; [lia|]. constructor; [lia|done].
  - destruct (IH x) as [H1 H2]. destruct (pass key x l) as [m l']; simpl in *.
    split; [lia|]. constructor; [lia|done].
Qed.

Lemma pass_noswap x l :
  Forall (λ y, key y ≤ key x) l → pass key x l = (x, l).
Proof.
  induction 1 as [|y l Hy _ IH]; simpl; [done|].
  rewrite bool_decide_false by lia. by rewrite IH.
Qed.


Lemma passes_perm n : ∀ l, passes key n l ≡ₚ l.
Proof.
  induction n as [|n IH]; intros [|x rest]; simpl; try done.
  pose proof (pass_perm x rest) as Hp.
  destruct (pass key x rest) as [m r]; simpl in *.
  by rewrite IH.
Qed.

Lemma passes_descending n : ∀ l,
  (length l ≤ S n)%nat → descending key (passes key n l).
Proof.
  induction n as [|n IH]; intros l Hl.
  - destruct l as [|x [|y l]]; simpl in *; try lia.
    + constructor.
    + repeat constructor.
  - destruct l as [|x rest]; simpl; [constructor|].
    pose proof (pass_max x rest) as [_ Hmax].
    pose proof (pass_length x rest) as Hlen.
    destruct (pass key x rest) as [m r]; simpl in *.
    constructor.
    + apply IH. lia.
    + by rewrite passes_perm.
Qed.



End sort_facts.

(** ** Task identifiers *)

Lemma pretty_N_char_underscore x : pretty_N_char x ≠ "_"%char.
Proof. unfold pretty_N_char. by repeat case_match. Qed.

Lemma pretty_N_go_free x : ∀ s, free_of "_" s → free_of "_" (pretty_N_go x s).
Proof.
  induction (N.lt_wf_0 x) as [x _ IH]; intros s Hs.
  destruct (decide (0 < x)%N) as [Hx|Hx].
  - rewrite pretty_N_go_step by done. apply IH.
    + by apply N.div_lt.
    + split; [apply pretty_N_char_underscore|done].
  - replace x with 0%N by lia. by rewrite pretty_N_go_0.
Qed.

Lemma pretty_N_free (x : N) : free_of "_" (pretty x).
Proof.
  unfold pretty, pretty_N. case_decide; [by compute|].
  by apply pretty_N_go_free.
Qed.

Lemma pretty_Z_free (x : Z) : free_of "_" (pretty x).
Proof.
  destruct x as [|p|p]; unfold pretty, pretty_Z.
  - by compute.
  - apply pretty_N_free.
  - split; [done|]. apply pretty_N_free.
Qed.

Lemma append_sep_inj c s1 : ∀ s2 t1 t2,
  free_of c s1 → free_of c s2 →
  s1 +:+ String c t1 = s2 +:+ String c t2 → s1 = s2 ∧ t1 = t2.
Proof.
  induction s1 as [|a s1 IH]; intros [|b s2] t1 t2 H1 H2 Heq; simpl in *.
  - by simplify_eq.
  - simplify_eq. by destruct H2.
  - simplify_eq. by destruct H1.
  - destruct H1 as [_ H1], H2 as [_ H2]. simplify_eq.
    destruct (IH _ _ _ H1 H2 ltac:(done)) as [-> ->]. done.
Qed.

Lemma generateTaskID_eq a b a' b' :
  generateTaskID a b = generateTaskID a' b' ↔ a = a' ∧ Unix b = Unix b'.
Proof.
  unfold generateTaskID, UnixNano. split.
  - intros Heq. simpl in Heq. simplify_eq.
    apply append_sep_inj in Heq as [Ha Hb]; try apply pretty_Z_free.
    split; by apply (inj pretty).
  - by intros [-> ->].
Qed.

(** ** Records, [executeTask] and the flush in closed form *)

Lemma update_Some a f wm ti :
  heap wm !! a = Some ti →
  update a f wm = set_heap (<[a := f ti]> (heap wm)) wm.
Proof. intros H. unfold update. by rewrite H. Qed.

Lemma deref_Some a wm ti : heap wm !! a = Some ti → deref wm a = Ok ti.
Proof. intros H. unfold deref. by rewrite H. Qed.

Lemma heap_insert_lookup (h : list TaskInfo) a ti ti' :
  h !! a = Some ti → <[a := ti']> h !! a = Some ti'.
Proof. intros H. apply list_lookup_insert_eq. by eapply lookup_lt_Some. Qed.

Lemma executeTask_spec ctx n1 n2 a wm ti :
  heap wm !! a = Some ti →
  Chan.closed (submitQueue wm) = false →
  executeTask ctx n1 n2 a wm = Ok (executeTask_result ctx n1 n2 a ti wm).
Proof.
  intros Ha Hopen.
  destruct wm as [wc sq tq qt reg w h pend lg ex].
  destruct sq as [sbuf scap scl]. simpl in *. subst scl.
  pose proof (lookup_lt_Some _ _ _ Ha) as Hlt.
  unfold executeTask, executeTask_begin, executeTask_call, executeTask_end,
    executeTask_result, deref, update. simpl.
  rewrite Ha. simpl.
  repeat (rewrite list_lookup_insert_eq by (rewrite ?length_insert; done);
          simpl).
  rewrite ?list_insert_insert_eq.
  destruct (Execute (task ti) (taskCtx ctx (task ti))) as [e|]; simpl;
    repeat case_decide; simpl; unfold Chan.send_nb; simpl;
    repeat case_decide; simpl; try lia;
    repeat (rewrite list_lookup_insert_eq by (rewrite ?length_insert; done);
            simpl);
    by rewrite ?list_insert_insert_eq.
Qed.

Lemma dispatch_spec l : ∀ wm,
  Chan.closed (taskQueue wm) = false →
  dispatch l wm = Ok (dispatch_result l wm).
Proof.
  induction l as [|a l IH]; intros wm Hopen;
    destruct wm as [wc sq tq qt reg w h pend lg ex];
    destruct tq as [tbuf tcap tcl]; simpl in *; subst tcl.
  - unfold dispatch_result, room, dropped. simpl.
    by rewrite take_nil, drop_nil, !app_nil_r.
  - unfold Chan.send_nb. simpl. case_decide; simpl.
    + rewrite IH by done. unfold dispatch_result, room, dropped, idOf. simpl.
      rewrite length_app. simpl.
      replace (tcap - length tbuf)%nat
        with (S (tcap - (length tbuf + 1)))%nat by lia.
      simpl. by rewrite <-app_assoc.
    + rewrite IH by done. unfold dispatch_result, room, dropped, idOf. simpl.
      replace (tcap - length tbuf)%nat with 0%nat by lia.
      simpl. by rewrite <-app_assoc.
Qed.

Lemma flushPendingTasks_spec l wm :
  Chan.closed (taskQueue wm) = false →
  flushPendingTasks l wm
  = Ok (sortByPriority (prio wm) l,
        dispatch_result (sortByPriority (prio wm) l) wm).
Proof.
  intros Hopen. unfold flushPendingTasks. case_decide as Hl.
  - apply nil_length_inv in Hl as ->.
    destruct wm as [wc sq tq qt reg w h pend lg ex];
      destruct tq as [tbuf tcap tcl]; simpl in *; subst tcl.
    unfold dispatch_result, dropped, sortByPriority. simpl.
    by rewrite ?take_nil, ?drop_nil, !app_nil_r.
  - by rewrite dispatch_spec.
Qed.
Lemma int_wrap_id x : - 2^63 ≤ x < 2^63 → int_wrap x = x.
Proof.
  intros H. unfold int_wrap. rewrite Z.mod_small; lia.
Qed.

Lemma calls_record_call a c wm :
  calls a (record_call a c wm) = S (calls a wm).
Proof.
  unfold calls. simpl. rewrite filter_app, length_app. simpl.
  rewrite filter_cons_True by done. simpl. lia.
Qed.









Lemma after_impl {A} (o : outcome A) (P Q : A → Prop) :
  after o P → (∀ a, P a → Q a) → after o Q.
Proof. destruct o; simpl; [|done..]. intros HP H. by apply H. Qed.



Lemma SubmitTask_idle n1 n2 n3 t wm :
  idle wm →
  after (SubmitTask n1 n2 n3 t wm) (λ '(id, err, wm'),
    id = generateTaskID n1 n2 ∧ err = None ∧
    awaiting (length (heap wm)) t (calls (length (heap wm)) wm) 0 wm').
Proof.
  intros (Hsb & Hsc & Hscap & Htb & Htc & Htcap & Hp).
  destruct wm as [wc [sb sc scl] [tb tc tcl] qt reg w h pend lg ex].
  simpl in *. subst sb scl tb tcl pend.
  destruct sc as [|sc]; [lia|].
  unfold SubmitTask, Chan.send_nb. simpl.
  repeat split; try done.
  eexists. split; [by apply list_lookup_middle|done].
Qed.

(** C1 (code at the failing input).  With the submission queue at its
    capacity, [SubmitTask] returns the empty identifier and the error
    "task queue is full" at once, and the record it has just put in the
    registry is left [Pending] with no error: it is not marked [Failed]. *)
Theorem SubmitTask_queue_full_leaves_Pending :
  after submit_queue_full (λ wm,
    length (Chan.buf (submitQueue wm)) = Chan.cap (submitQueue wm) ∧
    after (SubmitTask 500 500 500 (succeeding 7) wm) (λ '(id, err, wm'),
      id = "" ∧ err = Some "task queue is full"%string ∧
      ∃ p ti, tasks wm' !! generateTaskID 500 500 = Some p ∧
              heap wm' !! p = Some ti ∧
              Status ti = TaskStatusPending ∧ Error ti = None)).
Proof.
  vm_compute. do 3 (split; [reflexivity|]).
  eexists _, _. repeat split; reflexivity.
Qed.

(** In every state: a full, open submission queue makes [SubmitTask]
    return the error without touching the queue, and leaves the new
    record [Pending] in the registry. *)
Lemma SubmitTask_queue_full n1 n2 n3 t wm :
  Chan.closed (submitQueue wm) = false →
  room (submitQueue wm) = 0%nat →
  ∃ wm', SubmitTask n1 n2 n3 t wm = Ok ("", Some "task queue is full"%string, wm') ∧
    submitQueue wm' = submitQueue wm ∧
    tasks wm' !! generateTaskID n1 n2 = Some (length (heap wm)) ∧
    Status <$> heap wm' !! length (heap wm) = Some TaskStatusPending.
Proof.
  intros Hopen Hroom.
  destruct wm as [wc sq tq qt reg w h pend lg ex];
    destruct sq as [sbuf scap scl]; unfold room in *; simpl in *; subst scl.
  unfold SubmitTask, Chan.send_nb. simpl.
  rewrite decide_False by lia. simpl.
  eexists. split; [reflexivity|]. simpl. split; [done|].
  split; [by rewrite lookup_insert_eq|].
  by rewrite list_lookup_middle.
Qed.

(** On a retry the worker takes the other course: a full submission queue
    marks the record [Failed] with the error of the execution. *)
Lemma executeTask_retry_queue_full ctx n1 n2 a wm ti e :
  heap wm !! a = Some ti →
  Chan.closed (submitQueue wm) = false →
  room (submitQueue wm) = 0%nat →
  Execute (task ti) (taskCtx ctx (task ti)) = Some e →
  Retries ti < Retry (task ti) →
  after (executeTask ctx n1 n2 a wm) (λ wm',
    ∃ ti', heap wm' !! a = Some ti' ∧
           Status ti' = TaskStatusFailed ∧ Error ti' = Some e).
Proof.
  intros Ha Hopen Hroom He Hlt. rewrite (executeTask_spec _ _ _ _ _ ti) by done.
  unfold executeTask_result, room in *. rewrite He. simpl.
  rewrite decide_True by done. rewrite decide_False by lia.
  simpl. eexists. split; [by eapply heap_insert_lookup|done].
Qed.
(** C2 (the claim fails).  With the dispatch queue at its capacity, the
    flush of the batch [[100]] leaves the record out of the dispatch queue,
    keeps nothing for a later flush and leaves the record [Pending]. *)
Lemma flush_full_queue_drops :
  after dispatch_queue_full (λ wm,
    pendingTasks wm = [100%nat] ∧
    after (turn (scheduler SchedTick wm)) (λ wm',
      (100%nat ∉ Chan.buf (taskQueue wm')) ∧
      pendingTasks wm' = [] ∧
      Status <$> heap wm' !! 100%nat = Some TaskStatusPending)).
Proof.
  vm_compute. split; [reflexivity|]. split; [|split; reflexivity].
  intros H. repeat (apply elem_of_cons in H as [H|H]; [discriminate H|]).
  by apply elem_of_nil in H.
Qed.

(** C2 (amended).  A flush on the tick offers every record of the batch to
    the dispatch queue once.  Afterwards each record of the batch is in the
    dispatch queue, or was dropped with the warning "Task queue full,
    dropping task" logged for its identifier; the scheduler keeps no record
    for a later flush, and no record is changed: none is marked [Failed]. *)
Theorem flush_dispatches_or_drops wm :
  Chan.closed (taskQueue wm) = false →
  after (turn (scheduler SchedTick wm)) (λ wm',
    pendingTasks wm' = [] ∧
    heap wm' = heap wm ∧
    tasks wm' = tasks wm ∧
    ∀ a, a ∈ pendingTasks wm →
      a ∈ Chan.buf (taskQueue wm') ∨
      (LWarn, "Task queue full, dropping task"%string, idOf wm a)
        ∈ drop (length (log wm)) (log wm')).
Proof.
  intros Hopen. unfold scheduler. case_decide as Hlen; simpl.
  - rewrite flushPendingTasks_spec by done. simpl.
    repeat split; try done.
    intros a Ha. rewrite drop_app_length.
    assert (Hs : a ∈ sortByPriority (prio wm) (pendingTasks wm)).
    { by rewrite sortByPriority_passes, passes_perm. }
    rewrite <-(take_drop (room (taskQueue wm))) in Hs.
    apply elem_of_app in Hs as [Hs|Hs].
    + left. apply elem_of_app. by right.
    + right. unfold dropped. apply list_elem_of_fmap. by exists a.
  - destruct (pendingTasks wm) as [|b l] eqn:Hp; simpl in *; [|lia].
    repeat split; try done.
    intros a Ha. by apply elem_of_nil in Ha.
Qed.

Lemma flush_dispatches_or_drops_witness :
  let wm := result dispatch_queue_full in
  Chan.closed (taskQueue wm) = false ∧
  after (turn (scheduler SchedTick wm)) (λ wm',
    pendingTasks wm' = [] ∧
    heap wm' = heap wm ∧
    tasks wm' = tasks wm ∧
    ∀ a, a ∈ pendingTasks wm →
      a ∈ Chan.buf (taskQueue wm') ∨
      (LWarn, "Task queue full, dropping task"%string, idOf wm a)
        ∈ drop (length (log wm)) (log wm')).
Proof.
  split; [vm_compute; reflexivity|].
  apply (flush_dispatches_or_drops (result dispatch_queue_full)).
  vm_compute; reflexivity.
Defined.
(** C3 (the claim fails).  On a fresh module the first [Stop] returns; the
    second panics on the closed [quit] channel, and a [SubmitTask] after
    [Stop] panics on the closed submission queue. *)
Lemma Stop_twice_panics :
  after (Stop (NewWorkerModule 4)) (λ wm,
    Stop wm = Panic "close of closed channel" ∧
    SubmitTask 1 1 1 (succeeding 0) wm = Panic "send on closed channel").
Proof. vm_compute. split; reflexivity. Qed.

(** C3 (amended).  On a module whose three channels are open, one [Stop]
    returns nil without blocking ([wm.wg] counts nothing) and closes the
    [quit] channel and both queues, leaving registry and records as they
    were.  The module keeps no closed state and has no error for it: on
    the stopped module a further [Stop] panics with "close of closed
    channel", and every [SubmitTask] panics with "send on closed channel"
    instead of returning an error. *)
Theorem Stop_once wm :
  Chan.closed (quit wm) = false →
  Chan.closed (submitQueue wm) = false →
  Chan.closed (taskQueue wm) = false →
  wg wm = 0%nat →
  after (Stop wm) (λ wm',
    Chan.closed (quit wm') = true ∧
    Chan.closed (submitQueue wm') = true ∧
    Chan.closed (taskQueue wm') = true ∧
    tasks wm' = tasks wm ∧ heap wm' = heap wm ∧
    Stop wm' = Panic "close of closed channel" ∧
    ∀ n1 n2 n3 t,
      SubmitTask n1 n2 n3 t wm' = Panic "send on closed channel").
Proof.
  intros Hq Hs Ht Hw.
  destruct wm as [wc [sb sc scl] [tb tc tcl] [qb qc qcl] reg w h pend lg ex].
  simpl in *. subst. by vm_compute.
Qed.

Lemma Stop_once_witness :
  let wm := NewWorkerModule 4 in
  (Chan.closed (quit wm) = false ∧ Chan.closed (submitQueue wm) = false ∧
   Chan.closed (taskQueue wm) = false ∧ wg wm = 0%nat) ∧
  after (Stop wm) (λ wm',
    Chan.closed (quit wm') = true ∧
    Chan.closed (submitQueue wm') = true ∧
    Chan.closed (taskQueue wm') = true ∧
    tasks wm' = tasks wm ∧ heap wm' = heap wm ∧
    Stop wm' = Panic "close of closed channel" ∧
    ∀ n1 n2 n3 t,
      SubmitTask n1 n2 n3 t wm' = Panic "send on closed channel").
Proof.
  split; [by repeat split|].
  apply (Stop_once (NewWorkerModule 4)); reflexivity.
Defined.

(** [Start] leaves [wm.wg] alone: the counter [Stop] waits on is the one
    the module was created with. *)
Lemma Start_wg extwg wm : wg (Start extwg wm).2 = wg wm.
Proof. done. Qed.
(** C4 (the claim fails).  Two submissions that read the same clock values
    both succeed and return the same identifier; the registry entry of the
    first record is overwritten by the second: the first record is still
    queued but no identifier leads to it. *)
Lemma SubmitTask_same_clock_collides :
  after (SubmitTask 7 7 7 (succeeding 1) (NewWorkerModule 1))
    (λ '(id1, err1, wm1),
      after (SubmitTask 7 7 7 (succeeding 2) wm1) (λ '(id2, err2, wm2),
        id1 = id2 ∧ err1 = None ∧ err2 = None ∧
        tasks wm1 !! id1 = Some 0%nat ∧
        tasks wm2 !! id1 = Some 1%nat ∧
        Chan.buf (submitQueue wm2) = [0%nat; 1%nat])).
Proof. vm_compute. repeat split; reflexivity. Qed.

(** C4 (amended).  The identifier is a function of the two clock readings
    of [generateTaskID]: two calls get different identifiers exactly when
    their nanosecond readings or the seconds of their second readings
    differ.  [SubmitTask] does not look the identifier up: whatever the
    registry held, it maps the identifier to the new record afterwards and
    leaves every other entry as it was. *)
Theorem generateTaskID_collision n1 n2 n1' n2' n3 t wm :
  (generateTaskID n1 n2 = generateTaskID n1' n2' ↔
     n1 = n1' ∧ Unix n2 = Unix n2') ∧
  (Chan.closed (submitQueue wm) = false →
   after (SubmitTask n1 n2 n3 t wm) (λ '(_, _, wm'),
     tasks wm' !! generateTaskID n1 n2 = Some (length (heap wm)) ∧
     (∀ id, id ≠ generateTaskID n1 n2 → tasks wm' !! id = tasks wm !! id) ∧
     ∃ ti, heap wm' = heap wm ++ [ti] ∧ task ti = t ∧
           ID ti = generateTaskID n1 n2 ∧ Status ti = TaskStatusPending)).
Proof.
  split; [apply generateTaskID_eq|].
  intros Hopen.
  destruct wm as [wc [sb sc scl] tq qt reg w h pend lg ex].
  simpl in *. subst scl.
  unfold SubmitTask, Chan.send_nb. simpl.
  case_decide; simpl; (split; [by rewrite lookup_insert_eq|]);
    (split; [by intros id Hid; rewrite lookup_insert_ne|]);
    by eexists.
Qed.

Lemma generateTaskID_collision_witness :
  let wm := NewWorkerModule 1 in
  Chan.closed (submitQueue wm) = false ∧
  (generateTaskID 7 7 = generateTaskID 7 8 ↔ 7 = 7 ∧ Unix 7 = Unix 8) ∧
  after (SubmitTask 7 7 7 (succeeding 1) wm) (λ '(_, _, wm'),
     tasks wm' !! generateTaskID 7 7 = Some (length (heap wm)) ∧
     (∀ id, id ≠ generateTaskID 7 7 → tasks wm' !! id = tasks wm !! id) ∧
     ∃ ti, heap wm' = heap wm ++ [ti] ∧ task ti = succeeding 1 ∧
           ID ti = generateTaskID 7 7 ∧ Status ti = TaskStatusPending).
Proof.
  split; [reflexivity|].
  pose proof (generateTaskID_collision 7 7 7 8 7 (succeeding 1)
                (NewWorkerModule 1)) as [H1 H2].
  split; [exact H1|]. apply H2. reflexivity.
Defined.


(** With [RetryBudget = 2] the task is executed three times and settles in
    [Failed]. *)
Example retry_budget_two :
  after (wm ← submit_all 1 [failing "boom" 2] (NewWorkerModule 1);
         cycles Background 9 5 wm) (λ wm,
    calls 0%nat wm = 3%nat ∧
    (λ ti, (Status ti, Error ti, Retries ti)) <$> heap wm
      = [(TaskStatusFailed, Some "boom"%string, 2)]).
Proof. vm_compute. split; reflexivity. Qed.





(** C8.  [CancelTask] returns true exactly when the identifier is in the
    registry and its record is [Pending], and the module it leaves is the
    one where that record is [Cancelled] with its end time set; for a
    record in any other status, and for an unknown identifier, it returns
    false and leaves the module as it was.  A worker that takes a
    [Cancelled] record from the dispatch queue drops it: [Execute] is not
    called and no record changes. *)
Theorem CancelTask_only_Pending now taskID wm :
  (∀ wm', CancelTask now taskID wm = Ok (true, wm') ↔
     ∃ p ti, tasks wm !! taskID = Some p ∧ heap wm !! p = Some ti ∧
             Status ti = TaskStatusPending ∧
             wm' = set_heap
                     (<[p := set_EndedAt now
                               (set_Status TaskStatusCancelled ti)]> (heap wm))
                     wm) ∧
  (∀ p ti, tasks wm !! taskID = Some p → heap wm !! p = Some ti →
           Status ti ≠ TaskStatusPending →
           CancelTask now taskID wm = Ok (false, wm)) ∧
  (tasks wm !! taskID = None → CancelTask now taskID wm = Ok (false, wm)) ∧
  (∀ ctx n1 n2 p rest ti,
     Chan.buf (taskQueue wm) = p :: rest → heap wm !! p = Some ti →
     Status ti = TaskStatusCancelled →
     ∃ wm', worker ctx n1 n2 wm = Some (Ok (true, wm')) ∧
            executed wm' = executed wm ∧ heap wm' = heap wm ∧
            Chan.buf (taskQueue wm') = rest).
Proof.
  split; [|split; [|split]].
  - intros wm'. split.
    + unfold CancelTask, deref, update.
      destruct (tasks wm !! taskID) as [p|]; [|done].
      destruct (heap wm !! p) as [ti|] eqn:Hp; simpl; [|done].
      case_decide as Hst; [done|].
      intros [= <-]. exists p, ti.
      assert (Status ti = TaskStatusPending)
        by (by destruct (decide (Status ti = TaskStatusPending))).
      done.
    + intros (p & ti & Hid & Hp & Hst & ->).
      unfold CancelTask, deref, update. rewrite Hid, Hp. simpl.
      rewrite decide_False; [done|]. by intros [].
  - intros p ti Hid Hp Hst.
    unfold CancelTask, deref. rewrite Hid, Hp. simpl.
    by rewrite decide_True.
  - intros Hid. unfold CancelTask. by rewrite Hid.
  - intros ctx n1 n2 p rest ti Hq Hp Hst.
    unfold worker, Chan.recv, worker_cancelled, deref. rewrite Hq. simpl.
    rewrite Hp. simpl. rewrite bool_decide_true by done.
    by eexists.
Qed.

Lemma CancelTask_only_Pending_witness :
  let wm := result (submit_all 1 [succeeding 1] (NewWorkerModule 1)) in
  (∃ p ti, tasks wm !! "task_1_0" = Some p ∧ heap wm !! p = Some ti ∧
           Status ti = TaskStatusPending) ∧
  ∃ wm', CancelTask 2 "task_1_0" wm = Ok (true, wm') ∧
         Status <$> heap wm' !! 0%nat = Some TaskStatusCancelled.
Proof.
  cbv zeta.
  split; [eexists _, _; vm_compute; repeat split; reflexivity|].
  eexists. split.
  - apply (CancelTask_only_Pending 2 "task_1_0"
             (result (submit_all 1 [succeeding 1] (NewWorkerModule 1)))).
    eexists _, _. vm_compute. repeat split; reflexivity.
  - reflexivity.
Defined.

(** C9 (code at the failing interleaving).  The worker reads the status of
    the record it has taken without the mutex; [CancelTask] then finds the
    record [Pending], marks it [Cancelled] and returns true; the worker
    goes on into [executeTask], which sets [Running] whatever the status
    is.  The record is [Cancelled], then [Running], then [Completed], and
    [Execute] was called once. *)
Theorem cancelled_record_runs :
  cancel_race
  = Ok (false, true,
        [TaskStatusCancelled; TaskStatusRunning; TaskStatusCompleted], 1%nat).
Proof. by vm_compute. Qed.

(** The first locked section of [executeTask] does not look at the status
    it overwrites. *)
Lemma executeTask_begin_any_status now a wm ti :
  heap wm !! a = Some ti →
  after (executeTask_begin now a wm) (λ wm',
    Status <$> heap wm' !! a = Some TaskStatusRunning).
Proof.
  intros Ha. unfold executeTask_begin, deref, update. rewrite Ha. simpl.
  by erewrite heap_insert_lookup.
Qed.





(** * Further properties of the module *)

(** ** [executeTask] and the flush without assumptions on the channels *)

Lemma executeTask_cases ctx n1 n2 a wm ti :
  heap wm !! a = Some ti →
  executeTask ctx n1 n2 a wm
  = if Chan.closed (submitQueue wm)
       && bool_decide (is_Some (Execute (task ti) (taskCtx ctx (task ti)))
                       ∧ Retries ti < Retry (task ti))
    then Panic "send on closed channel"
    else Ok (executeTask_result ctx n1 n2 a ti wm).
Proof.
  intros Ha.
  destruct (Chan.closed (submitQueue wm)) eqn:Hcl; simpl;
    [|by apply executeTask_spec].
  destruct (Execute (task ti) (taskCtx ctx (task ti))) as [e|] eqn:He.
  - destruct (decide (Retries ti < Retry (task ti))) as [Hr|Hr].
    + rewrite bool_decide_true by (split; [by eexists|done]).
      destruct wm as [wc sq tq qt reg w h pend lg ex].
      destruct sq as [sbuf scap scl]. simpl in *. subst scl.
      pose proof (lookup_lt_Some _ _ _ Ha) as Hlt.
      unfold executeTask, executeTask_begin, executeTask_call,
        executeTask_end, deref, update. simpl.
      rewrite Ha. simpl.
      repeat (rewrite list_lookup_insert_eq
                by (rewrite ?length_insert; done); simpl).
      rewrite He. simpl. rewrite decide_True by done. simpl.
      repeat (rewrite list_lookup_insert_eq
                by (rewrite ?length_insert; done); simpl).
      done.
    + rewrite bool_decide_false by (by intros [_ ?]).
      destruct wm as [wc sq tq qt reg w h pend lg ex].
      destruct sq as [sbuf scap scl]. simpl in *. subst scl.
      pose proof (lookup_lt_Some _ _ _ Ha) as Hlt.
      unfold executeTask, executeTask_begin, executeTask_call,
        executeTask_end, executeTask_result, deref, update. simpl.
      rewrite Ha. simpl.
      repeat (rewrite list_lookup_insert_eq
                by (rewrite ?length_insert; done); simpl).
      rewrite He. simpl. rewrite !decide_False by done. simpl.
      repeat (rewrite list_lookup_insert_eq
                by (rewrite ?length_insert; done); simpl).
      by rewrite ?list_insert_insert_eq.
  - rewrite bool_decide_false by (by intros [[? [=]] _]).
    destruct wm as [wc sq tq qt reg w h pend lg ex].
    destruct sq as [sbuf scap scl]. simpl in *. subst scl.
    pose proof (lookup_lt_Some _ _ _ Ha) as Hlt.
    unfold executeTask, executeTask_begin, executeTask_call,
      executeTask_end, executeTask_result, deref, update. simpl.
    rewrite Ha. simpl.
    repeat (rewrite list_lookup_insert_eq
              by (rewrite ?length_insert; done); simpl).
    rewrite He. simpl.
    repeat (rewrite list_lookup_insert_eq
              by (rewrite ?length_insert; done); simpl).
    by rewrite ?list_insert_insert_eq.
Qed.

Lemma sortByPriority_length {A} (key : A → Z) l :
  length (sortByPriority key l) = length l.
Proof. by rewrite sortByPriority_passes, passes_perm. Qed.

Lemma dispatch_closed a l wm :
  Chan.closed (taskQueue wm) = true →
  dispatch (a :: l) wm = Panic "send on closed channel".
Proof. intros H. simpl. unfold Chan.send_nb. by rewrite H. Qed.

Lemma flushPendingTasks_cases l wm :
  flushPendingTasks l wm
  = if decide (l = []) then Ok (l, wm)
    else if Chan.closed (taskQueue wm) then Panic "send on closed channel"
    else Ok (sortByPriority (prio wm) l,
             dispatch_result (sortByPriority (prio wm) l) wm).
Proof.
  case_decide as Hl.
  - subst l. done.
  - destruct (Chan.closed (taskQueue wm)) eqn:Hcl;
      [|by apply flushPendingTasks_spec].
    unfold flushPendingTasks. rewrite decide_False;
      [|by intros ?%nil_length_inv].
    pose proof (sortByPriority_length (prio wm) l) as Hlen.
    destruct (sortByPriority (prio wm) l) as [|a l'].
    + destruct l; simpl in *; [done|lia].
    + by rewrite dispatch_closed.
Qed.

(** ** What every step keeps *)



















(** ** Reachable states *)









(** ** The public functions *)

(** X4.  On an open submission queue [SubmitTask] returns a nil error
    exactly when the queue has room.  It then returns the generated
    identifier and the new record is the last of the queue; otherwise it
    returns the empty identifier and the queue is as it was.  In both
    cases the dispatch queue and the older records are untouched. *)
Theorem SubmitTask_accepts_iff_room n1 n2 n3 t wm :
  Chan.closed (submitQueue wm) = false →
  after (SubmitTask n1 n2 n3 t wm) (λ '(id, err, wm'),
    (err = None ↔ (length (Chan.buf (submitQueue wm))
                     < Chan.cap (submitQueue wm))%nat) ∧
    (err = None →
       id = generateTaskID n1 n2 ∧
       Chan.buf (submitQueue wm')
       = Chan.buf (submitQueue wm) ++ [length (heap wm)]) ∧
    (err ≠ None →
       id = "" ∧ err = Some "task queue is full"%string ∧
       submitQueue wm' = submitQueue wm) ∧
    taskQueue wm' = taskQueue wm ∧
    take (length (heap wm)) (heap wm') = heap wm).
Proof.
  intros Hopen.
  destruct wm as [wc [sb sc scl] tq qt reg w h pend lg ex].
  simpl in *. subst scl. unfold SubmitTask, Chan.send_nb. simpl.
  case_decide as Hroom; simpl.
  - repeat split; try done. by rewrite take_app_length.
  - repeat split; try done. by rewrite take_app_length.
Qed.

Lemma SubmitTask_accepts_iff_room_witness :
  let wm := NewWorkerModule 2 in
  Chan.closed (submitQueue wm) = false ∧
  after (SubmitTask 1 1 1 (succeeding 0) wm) (λ '(id, err, wm'),
    (err = None ↔ (length (Chan.buf (submitQueue wm))
                     < Chan.cap (submitQueue wm))%nat) ∧
    (err = None →
       id = generateTaskID 1 1 ∧
       Chan.buf (submitQueue wm')
       = Chan.buf (submitQueue wm) ++ [length (heap wm)]) ∧
    (err ≠ None →
       id = "" ∧ err = Some "task queue is full"%string ∧
       submitQueue wm' = submitQueue wm) ∧
    taskQueue wm' = taskQueue wm ∧
    take (length (heap wm)) (heap wm') = heap wm).
Proof.
  split; [reflexivity|].
  exact (SubmitTask_accepts_iff_room 1 1 1 (succeeding 0) (NewWorkerModule 2)
           eq_refl).
Defined.

(** X5.  What [SubmitTask] has registered, [GetTaskInfo] finds under the
    generated identifier, whether the record was queued or refused: it
    returns the pointer to the new record, [true], and the record is
    [Pending] with no retry, no error, the task and the creation time
    given, and the status text "pending". *)
Theorem SubmitTask_GetTaskInfo n1 n2 n3 t wm :
  Chan.closed (submitQueue wm) = false →
  after (SubmitTask n1 n2 n3 t wm) (λ '(_, _, wm1),
    after (GetTaskInfo (generateTaskID n1 n2) wm1) (λ '(p, found, wm2),
      p = Some (length (heap wm)) ∧ found = true ∧
      ∃ ti, heap wm2 !! length (heap wm) = Some ti ∧
            ID ti = generateTaskID n1 n2 ∧ task ti = t ∧
            Status ti = TaskStatusPending ∧ StatusStr ti = "pending" ∧
            CreatedAt ti = n3 ∧ Retries ti = 0 ∧ Error ti = None)).
Proof.
  intros Hopen.
  destruct wm as [wc [sb sc scl] tq qt reg w h pend lg ex].
  simpl in *. subst scl. unfold SubmitTask, Chan.send_nb. simpl.
  case_decide as Hroom; simpl;
    unfold GetTaskInfo, deref, update; simpl;
    rewrite lookup_insert_eq; simpl;
    rewrite list_lookup_middle by done; simpl;
    (repeat split; try done);
    eexists; (split; [apply list_lookup_insert_eq;
                      rewrite length_app; simpl; lia|done]).
Qed.

Lemma SubmitTask_GetTaskInfo_witness :
  let wm := NewWorkerModule 2 in
  Chan.closed (submitQueue wm) = false ∧
  after (SubmitTask 1 2 3 (succeeding 0) wm) (λ '(_, _, wm1),
    after (GetTaskInfo (generateTaskID 1 2) wm1) (λ '(p, found, wm2),
      p = Some (length (heap wm)) ∧ found = true ∧
      ∃ ti, heap wm2 !! length (heap wm) = Some ti ∧
            ID ti = generateTaskID 1 2 ∧ task ti = succeeding 0 ∧
            Status ti = TaskStatusPending ∧ StatusStr ti = "pending" ∧
            CreatedAt ti = 3 ∧ Retries ti = 0 ∧ Error ti = None)).
Proof.
  split; [reflexivity|].
  exact (SubmitTask_GetTaskInfo 1 2 3 (succeeding 0) (NewWorkerModule 2)
           eq_refl).
Defined.

Lemma TaskStatusStrMap_inj s1 s2 :
  TaskStatusStrMap s1 = TaskStatusStrMap s2 → s1 = s2.
Proof. by destruct s1, s2. Qed.

(** X6.  [GetTaskInfo] on an unknown identifier returns (nil, false) and
    changes nothing.  On a known one it changes only the status text of
    that record, which then names the record's status and no other status;
    asking again returns the same answer and changes nothing more. *)
Theorem GetTaskInfo_reads taskID wm :
  (tasks wm !! taskID = None → GetTaskInfo taskID wm = Ok (None, false, wm)) ∧
  (∀ r wm', GetTaskInfo taskID wm = Ok (r, wm') →
     GetTaskInfo taskID wm' = Ok (r, wm') ∧
     tasks wm' = tasks wm ∧ submitQueue wm' = submitQueue wm ∧
     taskQueue wm' = taskQueue wm ∧ executed wm' = executed wm ∧
     ∀ p, r = (Some p, true) →
       ∃ ti, heap wm !! p = Some ti ∧
             heap wm'
             = <[p := set_StatusStr (TaskStatusStrMap (Status ti)) ti]>
                 (heap wm) ∧
             ∀ s, TaskStatusStrMap s = TaskStatusStrMap (Status ti) →
                  s = Status ti).
Proof.
  split.
  - intros H. unfold GetTaskInfo. by rewrite H.
  - intros r wm'. unfold GetTaskInfo, deref, update.
    destruct (tasks wm !! taskID) as [p|] eqn:Hp; simpl.
    + destruct (heap wm !! p) as [ti|] eqn:Hti; simpl; [|done].
      intros [= <- <-]. simpl. rewrite Hp. simpl.
      rewrite (heap_insert_lookup _ _ ti) by done. simpl.
      rewrite list_insert_insert_eq.
      repeat split; try done.
      intros p' [= <-]. exists ti. split; [done|]. split; [done|].
      intros s Hs. by apply TaskStatusStrMap_inj.
    + intros [= <- <-]. rewrite Hp. by repeat split.
Qed.

Lemma GetTaskInfo_reads_witness :
  let wm := result (submit_all 1 [succeeding 0] (NewWorkerModule 2)) in
  tasks wm !! "nobody" = None ∧
  GetTaskInfo "nobody" wm = Ok (None, false, wm).
Proof.
  cbv zeta.
  assert (H : tasks (result (submit_all 1 [succeeding 0] (NewWorkerModule 2)))
              !! "nobody" = None) by (vm_compute; reflexivity).
  split; [exact H|].
  exact (proj1 (GetTaskInfo_reads "nobody" _) H).
Defined.

(** X7.  A second [CancelTask] on the same identifier returns false and
    changes nothing: the record keeps the end time of the first call. *)
Theorem CancelTask_twice now now' taskID wm wm1 :
  CancelTask now taskID wm = Ok (true, wm1) →
  CancelTask now' taskID wm1 = Ok (false, wm1) ∧
  ∃ p ti, tasks wm1 !! taskID = Some p ∧ heap wm1 !! p = Some ti ∧
          Status ti = TaskStatusCancelled ∧ EndedAt ti = now.
Proof.
  unfold CancelTask, deref, update.
  destruct (tasks wm !! taskID) as [p|] eqn:Hp; simpl; [|done].
  destruct (heap wm !! p) as [ti|] eqn:Hti; simpl; [|done].
  case_decide; [done|]. intros [= <-]. simpl. rewrite Hp. simpl.
  rewrite (heap_insert_lookup _ _ ti) by done. simpl.
  split; [done|]. eexists _, _. split; [done|].
  split; [by eapply heap_insert_lookup|done].
Qed.

Lemma CancelTask_twice_witness :
  let wm := result (submit_all 1 [succeeding 0] (NewWorkerModule 2)) in
  let wm1 := update 0%nat (λ ti, set_EndedAt 5
                               (set_Status TaskStatusCancelled ti)) wm in
  CancelTask 5 "task_1_0" wm = Ok (true, wm1) ∧
  CancelTask 6 "task_1_0" wm1 = Ok (false, wm1) ∧
  ∃ p ti, tasks wm1 !! "task_1_0" = Some p ∧ heap wm1 !! p = Some ti ∧
          Status ti = TaskStatusCancelled ∧ EndedAt ti = 5.
Proof.
  intros wm wm1.
  assert (H : CancelTask 5 "task_1_0" wm = Ok (true, wm1))
    by (vm_compute; reflexivity).
  split; [exact H|].
  exact (CancelTask_twice 5 6 "task_1_0" wm wm1 H).
Defined.

(** ** The worker and the scheduler, before and after [Stop] *)

(** X8.  How [executeTask] routes the result of [Execute], on an open
    submission queue.  The record ends [Completed] exactly when [Execute]
    returned nil; [Pending] exactly when it failed with the retry budget
    not used up and the submission queue had room, and the record is then
    the last of that queue; [Failed] otherwise, holding the error of this
    execution.  Start and end times are set, the error of a record that
    does not fail is left as it was, and no other record and neither the
    dispatch queue nor the registry is touched. *)
Theorem executeTask_outcome ctx n1 n2 a wm ti :
  heap wm !! a = Some ti →
  Chan.closed (submitQueue wm) = false →
  let res := Execute (task ti) (taskCtx ctx (task ti)) in
  let retry := is_Some res ∧ Retries ti < Retry (task ti) ∧
               (length (Chan.buf (submitQueue wm))
                  < Chan.cap (submitQueue wm))%nat in
  after (executeTask ctx n1 n2 a wm) (λ wm',
    ∃ ti', heap wm' !! a = Some ti' ∧
      ID ti' = ID ti ∧ task ti' = task ti ∧
      StartedAt ti' = n1 ∧ EndedAt ti' = n2 ∧
      (Status ti' = TaskStatusCompleted ↔ res = None) ∧
      (Status ti' = TaskStatusPending ↔ retry) ∧
      (Status ti' = TaskStatusFailed ↔ is_Some res ∧ ¬ retry) ∧
      (Status ti' = TaskStatusFailed → Error ti' = res) ∧
      (Status ti' ≠ TaskStatusFailed → Error ti' = Error ti) ∧
      (retry → Chan.buf (submitQueue wm')
               = Chan.buf (submitQueue wm) ++ [a]) ∧
      (¬ retry → submitQueue wm' = submitQueue wm) ∧
      taskQueue wm' = taskQueue wm ∧ tasks wm' = tasks wm ∧
      ∀ b, b ≠ a → heap wm' !! b = heap wm !! b).
Proof.
  intros Ha Hopen res retry. subst res retry.
  rewrite (executeTask_spec _ _ _ _ _ ti) by done. simpl.
  unfold executeTask_result.
  destruct (Execute (task ti) (taskCtx ctx (task ti))) as [e|] eqn:He;
    [destruct (decide (Retries ti < Retry (task ti))) as [Hr|Hr];
     [destruct (decide (length (Chan.buf (submitQueue
                  (record_call a (taskCtx ctx (task ti)) wm)))
                < Chan.cap (submitQueue
                  (record_call a (taskCtx ctx (task ti)) wm)))%nat)
        as [Hroom|Hroom]|]|];
    simpl in *;
    (eexists; split; [by eapply heap_insert_lookup|]);
    (repeat split; simpl; try done; try (intros; by apply list_lookup_insert_ne));
    try (by intros [[? [=]] _]); try (by intros (? & ? & ?));
    try (by intros [? ?]); try (by intros [_ []]; repeat split);
    try naive_solver.
Qed.

Lemma executeTask_outcome_witness :
  let t := failing "boom" 1 in
  let ti := {| ID := "task_1_0"; task := t; Status := TaskStatusPending;
               StatusStr := ""; CreatedAt := 1; StartedAt := 0; EndedAt := 0;
               Error := None; Retries := 0 |} in
  let wm := result (submit_all 1 [t] (NewWorkerModule 1)) in
  (heap wm !! 0%nat = Some ti ∧ Chan.closed (submitQueue wm) = false) ∧
  after (executeTask Background 2 3 0%nat wm) (λ wm',
    ∃ ti', heap wm' !! 0%nat = Some ti' ∧ Status ti' = TaskStatusPending ∧
           Chan.buf (submitQueue wm') = [0; 0]%nat).
Proof.
  intros t ti wm.
  assert (H1 : heap wm !! 0%nat = Some ti) by (vm_compute; reflexivity).
  assert (H2 : Chan.closed (submitQueue wm) = false)
    by (vm_compute; reflexivity).
  split; [exact (conj H1 H2)|].
  pose proof (executeTask_outcome Background 2 3 0%nat wm ti H1 H2) as H.
  cbv zeta in H.
  destruct (executeTask Background 2 3 0%nat wm) as [wm'| |];
    simpl in *; [|done..].
  destruct H as (ti' & Ha & _ & _ & _ & _ & _ & Hp & _ & _ & _ & Hq & _).
  assert (Hretry : is_Some (Execute (task ti) (taskCtx Background (task ti)))
                   ∧ Retries ti < Retry (task ti)
                   ∧ (length (Chan.buf (submitQueue wm))
                        < Chan.cap (submitQueue wm))%nat).
  { split; [by eexists|]. split; [by vm_compute|]. vm_compute. lia. }
  exists ti'. split; [done|]. split; [by apply Hp|]. by rewrite Hq.
Defined.

(** X9.  The retry count moves by at most one per execution, upwards and
    only on a failure within the budget; it never passes the budget of a
    task whose [Retry()] is a Go [int], and [Retries++] never wraps. *)
Theorem executeTask_Retries ctx n1 n2 a wm ti :
  heap wm !! a = Some ti →
  Chan.closed (submitQueue wm) = false →
  Retry (task ti) < 2^63 → - 2^63 ≤ Retries ti →
  after (executeTask ctx n1 n2 a wm) (λ wm',
    ∃ ti', heap wm' !! a = Some ti' ∧
      (Retries ti' = Retries ti + 1 ↔
         is_Some (Execute (task ti) (taskCtx ctx (task ti)))
         ∧ Retries ti < Retry (task ti)) ∧
      (Retries ti' = Retries ti ∨ Retries ti' = Retries ti + 1) ∧
      (Retries ti ≤ Retry (task ti) → Retries ti' ≤ Retry (task ti'))).
Proof.
  intros Ha Hopen HR Hlow.
  rewrite (executeTask_spec _ _ _ _ _ ti) by done. simpl.
  unfold executeTask_result.
  destruct (Execute (task ti) (taskCtx ctx (task ti))) as [e|] eqn:He;
    [destruct (decide (Retries ti < Retry (task ti))) as [Hr|Hr];
     [destruct (decide (length (Chan.buf (submitQueue
                  (record_call a (taskCtx ctx (task ti)) wm)))
                < Chan.cap (submitQueue
                  (record_call a (taskCtx ctx (task ti)) wm)))%nat)
        as [Hroom|Hroom]|]|];
    simpl in *;
    (eexists; split; [by eapply heap_insert_lookup|]); simpl;
    rewrite ?int_wrap_id by lia.
  - split; [split; [by split; [eexists|]|done]|]. split; [by right|lia].
  - split; [split; [by split; [eexists|]|done]|]. split; [by right|lia].
  - split; [split; [lia|by intros [_ ?]]|]. split; [by left|done].
  - split; [split; [lia|by intros [[? [=]] _]]|]. split; [by left|done].
Qed.

Lemma executeTask_Retries_witness :
  let t := failing "boom" 1 in
  let ti := {| ID := "task_1_0"; task := t; Status := TaskStatusPending;
               StatusStr := ""; CreatedAt := 1; StartedAt := 0; EndedAt := 0;
               Error := None; Retries := 0 |} in
  let wm := result (submit_all 1 [t] (NewWorkerModule 1)) in
  (heap wm !! 0%nat = Some ti ∧ Chan.closed (submitQueue wm) = false ∧
   Retry (task ti) < 2^63 ∧ - 2^63 ≤ Retries ti) ∧
  after (executeTask Background 2 3 0%nat wm) (λ wm',
    ∃ ti', heap wm' !! 0%nat = Some ti' ∧
      (Retries ti' = Retries ti + 1 ↔
         is_Some (Execute (task ti) (taskCtx Background (task ti)))
         ∧ Retries ti < Retry (task ti)) ∧
      (Retries ti' = Retries ti ∨ Retries ti' = Retries ti + 1) ∧
      (Retries ti ≤ Retry (task ti) → Retries ti' ≤ Retry (task ti'))).
Proof.
  intros t ti wm.
  assert (H1 : heap wm !! 0%nat = Some ti) by (vm_compute; reflexivity).
  assert (H2 : Chan.closed (submitQueue wm) = false)
    by (vm_compute; reflexivity).
  assert (H3 : Retry (task ti) < 2^63) by (vm_compute; reflexivity).
  assert (H4 : - 2^63 ≤ Retries ti) by (vm_compute; discriminate).
  split; [exact (conj H1 (conj H2 (conj H3 H4)))|].
  exact (executeTask_Retries Background 2 3 0%nat wm ti H1 H2 H3 H4).
Defined.

(** X10.  Once the submission queue is closed, [executeTask] panics with
    "send on closed channel" exactly when [Execute] fails with the retry
    budget not used up; a success or a last failure still returns, leaving
    the record [Completed] or [Failed]. *)
Theorem executeTask_after_Stop ctx n1 n2 a wm ti :
  heap wm !! a = Some ti →
  Chan.closed (submitQueue wm) = true →
  let res := Execute (task ti) (taskCtx ctx (task ti)) in
  (executeTask ctx n1 n2 a wm = Panic "send on closed channel" ↔
     is_Some res ∧ Retries ti < Retry (task ti)) ∧
  (¬ (is_Some res ∧ Retries ti < Retry (task ti)) →
   after (executeTask ctx n1 n2 a wm) (λ wm',
     ∃ ti', heap wm' !! a = Some ti' ∧
            match res with
            | Some e => Status ti' = TaskStatusFailed ∧ Error ti' = Some e
            | None => Status ti' = TaskStatusCompleted ∧ Error ti' = Error ti
            end)).
Proof.
  intros Ha Hcl res. subst res.
  rewrite (executeTask_cases _ _ _ _ _ ti) by done. rewrite Hcl. simpl.
  case_bool_decide as Hc.
  - split; [done|]. by intros [].
  - split; [by split|]. intros _. simpl. unfold executeTask_result.
    destruct (Execute (task ti) (taskCtx ctx (task ti))) as [e|] eqn:He.
    + rewrite decide_False by (intros ?; apply Hc; split; [by eexists|done]).
      simpl. eexists. split; [by eapply heap_insert_lookup|done].
    + simpl. eexists. split; [by eapply heap_insert_lookup|done].
Qed.

Lemma executeTask_after_Stop_witness :
  let t := failing "boom" 1 in
  let ti := {| ID := "task_1_0"; task := t; Status := TaskStatusPending;
               StatusStr := ""; CreatedAt := 1; StartedAt := 0; EndedAt := 0;
               Error := None; Retries := 0 |} in
  let wm := result (wm ← submit_all 1 [t] (NewWorkerModule 1); Stop wm) in
  (heap wm !! 0%nat = Some ti ∧ Chan.closed (submitQueue wm) = true) ∧
  executeTask Background 2 3 0%nat wm = Panic "send on closed channel".
Proof.
  intros t ti wm.
  assert (H1 : heap wm !! 0%nat = Some ti) by (vm_compute; reflexivity).
  assert (H2 : Chan.closed (submitQueue wm) = true)
    by (vm_compute; reflexivity).
  split; [exact (conj H1 H2)|].
  apply (proj1 (executeTask_after_Stop Background 2 3 0%nat wm ti H1 H2)).
  split; [by eexists|]. by vm_compute.
Defined.

(** X11.  After [Stop], with the submission queue drained, whatever case the
    scheduler takes next ends in the flush of what it still holds: with
    records left in its slice the flush panics with "send on closed
    channel" and none of them reaches a worker; with nothing left the
    scheduler returns (or, on a tick, goes on) without touching the
    module. *)
Theorem scheduler_after_Stop c wm :
  Chan.closed (quit wm) = true →
  Chan.closed (submitQueue wm) = true →
  Chan.closed (taskQueue wm) = true →
  Chan.buf (submitQueue wm) = [] →
  (pendingTasks wm ≠ [] →
   scheduler c wm = Some (Panic "send on closed channel")) ∧
  (pendingTasks wm = [] →
   ∃ go, scheduler c wm = Some (Ok (go, wm)) ∧ (go = true ↔ c = SchedTick)).
Proof.
  intros Hq Hs Ht Hb. split.
  - intros Hp. unfold scheduler, flush_and_return, Chan.recv.
    rewrite Hb, Hs, Hq, flushPendingTasks_cases, Ht.
    rewrite decide_False by done. simpl.
    destruct c; try done.
    rewrite decide_True; [done|].
    destruct (pendingTasks wm); simpl; [done|lia].
  - intros Hp. unfold scheduler, flush_and_return, Chan.recv.
    rewrite Hb, Hs, Hq, flushPendingTasks_cases.
    rewrite decide_True by done. simpl. rewrite Hp. simpl.
    assert (set_pendingTasks [] wm = wm) as ->.
    { destruct wm. simpl in *. by subst. }
    destruct c; simpl; eexists; (split; [done|]); by split.
Qed.

Lemma scheduler_after_Stop_witness :
  let wm := result (wm ← submit_all 1 [succeeding 0] (NewWorkerModule 1);
                    wm ← turn (scheduler SchedRecv wm); Stop wm) in
  (Chan.closed (quit wm) = true ∧ Chan.closed (submitQueue wm) = true ∧
   Chan.closed (taskQueue wm) = true ∧ Chan.buf (submitQueue wm) = [] ∧
   pendingTasks wm ≠ []) ∧
  scheduler SchedQuit wm = Some (Panic "send on closed channel").
Proof.
  intros wm.
  assert (H1 : Chan.closed (quit wm) = true) by (vm_compute; reflexivity).
  assert (H2 : Chan.closed (submitQueue wm) = true)
    by (vm_compute; reflexivity).
  assert (H3 : Chan.closed (taskQueue wm) = true)
    by (vm_compute; reflexivity).
  assert (H4 : Chan.buf (submitQueue wm) = []) by (vm_compute; reflexivity).
  assert (H5 : pendingTasks wm ≠ []) by (vm_compute; discriminate).
  split; [exact (conj H1 (conj H2 (conj H3 (conj H4 H5))))|].
  exact (proj1 (scheduler_after_Stop SchedQuit wm H1 H2 H3 H4) H5).
Defined.

(** ** The sort, task options and [Start] *)

Lemma passes_descending_id {A} (key : A → Z) n : ∀ l,
  descending key l → passes key n l = l.
Proof.
  induction n as [|n IH]; intros [|x rest] Hd; simpl; try done.
  apply StronglySorted_inv in Hd as [Hrest Hx].
  rewrite pass_noswap by done. by rewrite IH.
Qed.

Lemma equal_keys_descending {A} (key : A → Z) (l : list A) :
  (∀ x y, x ∈ l → y ∈ l → key x = key y) → descending key l.
Proof.
  unfold descending. induction l as [|x l IH]; intros Heq; constructor.
  - apply IH. intros y z Hy Hz. apply Heq; set_solver.
  - apply Forall_forall. intros y Hy. rewrite (Heq x y); set_solver.
Qed.

(** X12.  The sort leaves a batch that is already in descending order of
    priority as it is, so such a batch (one of equal priorities, say) is
    offered in the order of submission; sorting twice is sorting once, and
    the sort neither loses nor adds a record. *)
Theorem sortByPriority_sorted {A} (key : A → Z) (l : list A) :
  (descending key l → sortByPriority key l = l) ∧
  ((∀ x y, x ∈ l → y ∈ l → key x = key y) → sortByPriority key l = l) ∧
  sortByPriority key (sortByPriority key l) = sortByPriority key l ∧
  length (sortByPriority key l) = length l.
Proof.
  assert (Hd : descending key l → sortByPriority key l = l).
  { intros Hd. rewrite sortByPriority_passes. by apply passes_descending_id. }
  split; [done|]. split; [|split].
  - intros Heq. by apply Hd, equal_keys_descending.
  - rewrite (sortByPriority_passes key (sortByPriority key l)).
    apply passes_descending_id.
    rewrite sortByPriority_passes. apply passes_descending. lia.
  - by rewrite sortByPriority_passes, passes_perm.
Qed.

Lemma sortByPriority_sorted_witness :
  descending (λ x : Z, x) [3; 2; 2; 1] ∧
  sortByPriority (λ x : Z, x) [3; 2; 2; 1] = [3; 2; 2; 1].
Proof.
  assert (H : descending (λ x : Z, x) [3; 2; 2; 1]).
  { repeat constructor; lia. }
  split; [exact H|].
  exact (proj1 (sortByPriority_sorted (λ x : Z, x) [3; 2; 2; 1]) H).
Defined.

Lemma NewSimpleTask_snoc n h opts o :
  NewSimpleTask n h (opts ++ [o]) = o (NewSimpleTask n h opts).
Proof. unfold NewSimpleTask. by rewrite foldl_app. Qed.

(** X13.  [NewSimpleTask] keeps the name and the handler it is given
    whatever the options; priority, timeout and retry budget each take the
    value of the last option given for them, and 0 when there is none. *)
Theorem NewSimpleTask_options n h (os : list Opt) :
  let t := SimpleTask_Task (NewSimpleTask n h (option_of <$> os)) in
  Name t = n ∧ Execute t = h ∧
  Priority t = default 0 (last (omap priority_arg os)) ∧
  Timeout t = default 0 (last (omap timeout_arg os)) ∧
  Retry t = default 0 (last (omap retry_arg os)).
Proof.
  simpl. induction os as [|o os IH] using rev_ind; [done|].
  rewrite fmap_app, !omap_app. simpl. rewrite NewSimpleTask_snoc.
  destruct IH as (IH1 & IH2 & IH3 & IH4 & IH5).
  destruct o; simpl; rewrite ?last_snoc, ?app_nil_r; by repeat split.
Qed.

(** X14.  For every [workerCount], positive or not, the module has at least
    one worker, and [Start] adds that many goroutines and one for the
    scheduler to the wait group it is given, not to [wm.wg]. *)
Theorem Start_counts n extwg :
  let wm := NewWorkerModule n in
  workerCount wm = Z.max 1 n ∧
  (Start extwg wm).1 = (extwg + Z.to_nat (Z.max 1 n) + 1)%nat ∧
  wg (Start extwg wm).2 = 0%nat ∧
  idle (Start extwg wm).2.
Proof.
  simpl. case_decide; repeat split; simpl; try lia; f_equal; lia.
Qed.

(** ** One task through a flush window *)

Lemma SubmitTask_idle_registers n1 n2 n3 t wm :
  idle wm →
  ∃ wm1 ti0,
    SubmitTask n1 n2 n3 t wm = Ok (generateTaskID n1 n2, None, wm1) ∧
    tasks wm1 !! generateTaskID n1 n2 = Some (length (heap wm)) ∧
    heap wm1 = heap wm ++ [ti0] ∧ executed wm1 = executed wm ∧
    awaiting (length (heap wm)) t (calls (length (heap wm)) wm) 0 wm1.
Proof.
  intros Hidle.
  pose proof (SubmitTask_idle n1 n2 n3 t wm Hidle) as Haw.
  destruct Hidle as (Hsb & Hsc & Hscap & Htb & Htc & Htcap & Hp).
  unfold SubmitTask in *. revert Haw.
  generalize (generateTaskID n1 n2). intros id.
  destruct wm as [wc [sb sc scl] tq qt reg w h pend lg ex].
  simpl in *. subst sb scl.
  unfold Chan.send_nb. simpl.
  destruct sc as [|sc]; [lia|]. simpl.
  intros (_ & _ & Haw). eexists _, _. split; [reflexivity|].
  split; [apply lookup_insert_eq|].
  split; [reflexivity|]. split; [reflexivity|]. exact Haw.
Qed.

Lemma CancelTask_Pending now taskID wm p ti :
  tasks wm !! taskID = Some p → heap wm !! p = Some ti →
  Status ti = TaskStatusPending →
  CancelTask now taskID wm
  = Ok (true,
        set_heap (<[p := set_EndedAt now
                          (set_Status TaskStatusCancelled ti)]> (heap wm))
          wm).
Proof.
  intros Hp Hti Hst. unfold CancelTask, deref, update.
  rewrite Hp, Hti. simpl. rewrite decide_False; [done|]. by intros [].
Qed.

Lemma cycle_drops_cancelled ctx now a ti wm :
  Chan.buf (submitQueue wm) = [a] →
  Chan.buf (taskQueue wm) = [] →
  Chan.closed (taskQueue wm) = false →
  (0 < Chan.cap (taskQueue wm))%nat →
  pendingTasks wm = [] →
  heap wm !! a = Some ti → Status ti = TaskStatusCancelled →
  after (cycle ctx now wm) (λ wm',
    executed wm' = executed wm ∧ heap wm' = heap wm ∧
    Chan.buf (submitQueue wm') = [] ∧
    Chan.buf (taskQueue wm') = [] ∧ pendingTasks wm' = []).
Proof.
  intros Hsb Htb Htc Htcap Hp Ha Hst.
  destruct wm as [wc [sb sc scl] [tb tc tcl] qt reg w h pend lg ex].
  simpl in *. subst sb tb tcl pend.
  destruct tc as [|tc]; [lia|].
  unfold cycle. simpl.
  unfold worker_cancelled, deref. simpl. rewrite Ha. simpl.
  rewrite Hst. by simpl.
Qed.

(** X15.  A task cancelled before the scheduler's next flush is never
    executed.  On a module with nothing else in flight, [CancelTask] with
    the identifier [SubmitTask] returned succeeds; the flush window that
    follows still carries the record through both queues, the worker drops
    it, no call of [Execute] is made, and the record stays [Cancelled]
    with the end time of the cancellation. *)
Theorem cancel_before_flush ctx now n1 n2 n3 nc t wm0 :
  idle wm0 →
  after (SubmitTask n1 n2 n3 t wm0) (λ '(id, _, wm1),
    after (CancelTask nc id wm1) (λ '(ok, wm2),
      ok = true ∧
      after (cycle ctx now wm2) (λ wm3,
        executed wm3 = executed wm0 ∧
        (∃ ti, heap wm3 !! length (heap wm0) = Some ti ∧
               Status ti = TaskStatusCancelled ∧ EndedAt ti = nc) ∧
        Chan.buf (submitQueue wm3) = [] ∧
        Chan.buf (taskQueue wm3) = [] ∧ pendingTasks wm3 = []))).
Proof.
  intros Hidle.
  destruct (SubmitTask_idle_registers n1 n2 n3 t wm0 Hidle)
    as (wm1 & ti0 & -> & Hreg & Hh & Hex & Haw).
  destruct Haw as (Hsb & Hsc & Hscap & Htb & Htc & Htcap & Hp & Hti & _).
  destruct Hti as (ti & Ha & _ & Hst & _).
  simpl. rewrite (CancelTask_Pending _ _ _ _ ti) by done. simpl.
  split; [done|].
  eapply after_impl.
  { eapply (cycle_drops_cancelled ctx now (length (heap wm0))
              (set_EndedAt nc (set_Status TaskStatusCancelled ti)));
      simpl; try done. by eapply heap_insert_lookup. }
  simpl. intros wm3 (Hex3 & Hh3 & ? & ? & ?).
  split; [by rewrite Hex3|]. split; [|done].
  rewrite Hh3. eexists. split; [by eapply heap_insert_lookup|done].
Qed.

Lemma cancel_before_flush_witness :
  let wm0 := NewWorkerModule 1 in
  idle wm0 ∧
  after (SubmitTask 1 1 1 (succeeding 0) wm0) (λ '(id, _, wm1),
    after (CancelTask 2 id wm1) (λ '(ok, wm2),
      ok = true ∧
      after (cycle Background 3 wm2) (λ wm3,
        executed wm3 = executed wm0 ∧
        (∃ ti, heap wm3 !! length (heap wm0) = Some ti ∧
               Status ti = TaskStatusCancelled ∧ EndedAt ti = 2) ∧
        Chan.buf (submitQueue wm3) = [] ∧
        Chan.buf (taskQueue wm3) = [] ∧ pendingTasks wm3 = []))).
Proof.
  assert (H : idle (NewWorkerModule 1))
    by (repeat split; simpl; try reflexivity; lia).
  split; [exact H|].
  exact (cancel_before_flush Background 3 1 1 1 2 (succeeding 0)
           (NewWorkerModule 1) H).
Defined.

Lemma cycle_completes ctx now a t c0 k wm :
  (∀ c, Execute t c = None) →
  awaiting a t c0 k wm →
  after (cycle ctx now wm) (λ wm',
    executed wm' = executed wm ++ [(a, taskCtx ctx t)] ∧
    (∃ ti, heap wm' !! a = Some ti ∧
           Status ti = TaskStatusCompleted ∧ Error ti = None ∧
           Retries ti = k ∧ StartedAt ti = now ∧ EndedAt ti = now) ∧
    Chan.buf (submitQueue wm') = [] ∧
    Chan.buf (taskQueue wm') = [] ∧ pendingTasks wm' = []).
Proof.
  intros Hok (Hsb & Hsc & Hscap & Htb & Htc & Htcap & Hp & Hti & Hcalls).
  destruct Hti as (ti & Ha & Ht & Hst & Hre & Her).
  destruct wm as [wc [sb sc scl] [tb tc tcl] qt reg w h pend lg ex].
  simpl in *. subst sb scl tb tcl pend.
  destruct sc as [|sc]; [lia|]. destruct tc as [|tc]; [lia|].
  unfold cycle. simpl.
  unfold worker_cancelled, deref. simpl. rewrite Ha. simpl.
  rewrite Hst. simpl.
  rewrite (executeTask_spec _ _ _ _ _ ti); [|exact Ha|reflexivity].
  unfold executeTask_result. simpl. rewrite Ht, Hok. simpl.
  split; [done|]. split; [|done].
  eexists. split; [by eapply heap_insert_lookup|done].
Qed.

Lemma cycles_quiet ctx now wm n :
  Chan.buf (submitQueue wm) = [] → Chan.buf (taskQueue wm) = [] →
  pendingTasks wm = [] →
  cycles ctx now n wm = Ok wm.
Proof.
  intros Hsb Htb Hp.
  assert (Hc : cycle ctx now wm = Ok wm).
  { destruct wm as [wc [sb sc scl] [tb tc tcl] qt reg w h pend lg ex].
    simpl in *. by subst. }
  induction n as [|n IH]; simpl; [done|]. by rewrite Hc.
Qed.

(** X16.  A task whose [Execute] returns nil, submitted to a module with
    nothing else in flight, is executed once in the flush window that
    follows, with the context [taskCtx] gives it, and ends [Completed]
    with no error and no retry; both queues are empty again and further
    windows change nothing. *)
Theorem success_in_one_window ctx now n1 n2 n3 t wm0 :
  idle wm0 →
  (∀ c, Execute t c = None) →
  after (SubmitTask n1 n2 n3 t wm0) (λ '(_, _, wm1),
    after (cycle ctx now wm1) (λ wm2,
      executed wm2 = executed wm0 ++ [(length (heap wm0), taskCtx ctx t)] ∧
      (∃ ti, heap wm2 !! length (heap wm0) = Some ti ∧
             Status ti = TaskStatusCompleted ∧ Error ti = None ∧
             Retries ti = 0 ∧ StartedAt ti = now ∧ EndedAt ti = now) ∧
      Chan.buf (submitQueue wm2) = [] ∧
      Chan.buf (taskQueue wm2) = [] ∧ pendingTasks wm2 = [] ∧
      ∀ n, cycles ctx now n wm2 = Ok wm2)).
Proof.
  intros Hidle Hok.
  destruct (SubmitTask_idle_registers n1 n2 n3 t wm0 Hidle)
    as (wm1 & ti0 & -> & Hreg & Hh & Hex & Haw).
  simpl. eapply after_impl; [by eapply cycle_completes|].
  simpl. intros wm2 (Hex2 & Hti & Hsb & Htb & Hp).
  split; [by rewrite Hex2, Hex|]. split; [done|].
  do 3 (split; [done|]). intros n. by apply cycles_quiet.
Qed.

Lemma success_in_one_window_witness :
  let wm0 := NewWorkerModule 1 in
  (idle wm0 ∧ ∀ c, Execute (succeeding 4) c = None) ∧
  after (SubmitTask 1 1 1 (succeeding 4) wm0) (λ '(_, _, wm1),
    after (cycle Background 3 wm1) (λ wm2,
      executed wm2
      = executed wm0 ++ [(length (heap wm0),
                          taskCtx Background (succeeding 4))] ∧
      (∃ ti, heap wm2 !! length (heap wm0) = Some ti ∧
             Status ti = TaskStatusCompleted ∧ Error ti = None ∧
             Retries ti = 0 ∧ StartedAt ti = 3 ∧ EndedAt ti = 3) ∧
      Chan.buf (submitQueue wm2) = [] ∧
      Chan.buf (taskQueue wm2) = [] ∧ pendingTasks wm2 = [] ∧
      ∀ n, cycles Background 3 n wm2 = Ok wm2)).
Proof.
  assert (H : idle (NewWorkerModule 1))
    by (repeat split; simpl; try reflexivity; lia).
  assert (H2 : ∀ c, Execute (succeeding 4) c = None) by (intros c; reflexivity).
  split; [exact (conj H H2)|].
  exact (success_in_one_window Background 3 1 1 1 (succeeding 4)
           (NewWorkerModule 1) H H2).
Defined.

(** ** Witnesses for the reachable states *)






(** ** ModuleManager *)

Section module_manager_facts.
Context {W : Type}.
Implicit Types (m : Module W) (ms : list (Module W)) (w : W).

Lemma StartAll_range_app ctx ms1 ms2 w :
  StartAll_range ctx (ms1 ++ ms2) w
  = '(err, w1) ← StartAll_range ctx ms1 w;
    match err with
    | Some e => Ok (Some e, w1)
    | None => StartAll_range ctx ms2 w1
    end.
Proof.
  revert w. induction ms1 as [|m ms1 IH]; intros w; simpl; [done|].
  destruct (mod_Start m ctx w) as [[[e|] w1]| |]; simpl; try done.
Qed.

(** X17.  [StartAll] returns an error exactly when the [Start] of some
    module returns it after the [Start] of every module before it in the
    iteration returned nil: the iteration stops there, so the modules it
    had not yet reached are not started, and the ones before it are left
    started, as no [Stop] is called. *)
Theorem StartAll_first_error ctx ms w e w' :
  StartAll_range ctx ms w = Ok (Some e, w') ↔
  ∃ pre m post w1,
    ms = pre ++ m :: post ∧
    StartAll_range ctx pre w = Ok (None, w1) ∧
    mod_Start m ctx w1 = Ok (Some e, w').
Proof.
  split.
  - revert w. induction ms as [|m ms IH]; intros w; simpl; [done|].
    destruct (mod_Start m ctx w) as [[[e1|] w1]| |] eqn:Hm; simpl;
      try done.
    + intros [= <- <-]. by exists [], m, ms, w.
    + intros (pre & m' & post & w2 & -> & Hpre & Hm')%IH.
      exists (m :: pre), m', post, w2. simpl. rewrite Hm. simpl.
      by repeat split.
  - intros (pre & m & post & w1 & -> & Hpre & Hm).
    rewrite StartAll_range_app, Hpre. simpl. by rewrite Hm.
Qed.

End module_manager_facts.

Lemma StartAll_first_error_witness :
  StartAll_range Background [counts; always_fails; counts] 0%nat
  = Ok (Some "no"%string, 2%nat).
Proof.
  apply (proj2 (StartAll_first_error Background
                  [counts; always_fails; counts] 0%nat "no" 2%nat)).
  by exists [counts], always_fails, [counts], 1%nat.
Defined.



(** X19.  [StopAll] on a manager that holds one worker module stops it and
    returns nil; a second [StopAll] panics with "close of closed channel",
    as the manager calls [Stop] again on the stopped module. *)
Theorem StopAll_twice name wm extwg :
  Chan.closed (quit wm) = false →
  Chan.closed (submitQueue wm) = false →
  Chan.closed (taskQueue wm) = false →
  wg wm = 0%nat →
  let mm := RegisterModule name WorkerModule_Module NewModuleManager in
  ∃ wm', StopAll [name] mm (wm, extwg) = Ok (None, (wm', extwg)) ∧
         StopAll [name] mm (wm', extwg) = Panic "close of closed channel".
Proof.
  intros Hq Hs Ht Hw mm.
  unfold StopAll, mm, RegisterModule, NewModuleManager. simpl.
  rewrite lookup_insert_eq. simpl.
  destruct wm as [wc [sb sc scl] [tb tc tcl] [qb qc qcl] reg w h pend lg ex].
  simpl in *. subst. unfold Stop, Chan.close, wg_Wait. simpl.
  eexists. split; reflexivity.
Qed.

Lemma StopAll_twice_witness :
  let wm := NewWorkerModule 4 in
  let mm := RegisterModule "WorkerModule" WorkerModule_Module
              NewModuleManager in
  (Chan.closed (quit wm) = false ∧ Chan.closed (submitQueue wm) = false ∧
   Chan.closed (taskQueue wm) = false ∧ wg wm = 0%nat) ∧
  ∃ wm', StopAll ["WorkerModule"] mm (wm, 0%nat) = Ok (None, (wm', 0%nat)) ∧
         StopAll ["WorkerModule"] mm (wm', 0%nat)
         = Panic "close of closed channel".
Proof.
  intros wm mm.
  split; [by repeat split|].
  exact (StopAll_twice "WorkerModule" (NewWorkerModule 4) 0%nat
           eq_refl eq_refl eq_refl eq_refl).
Defined.
